(** * quetzal: the stock data agent (stock_data_agent.py)

    A shallow embedding of [FinancialDataParser] (the quantity parser) and of
    [StockDataAgent] (fetch with retry, extraction with the visited set, the
    per-company and per-run loops), with the properties of the specification
    stated over it.

    Python strings are sequences of Unicode code points.  What the
    interpreter decides from its Unicode database for code points outside
    ASCII, what [float] and the [urllib] helpers compute, is the class
    [Python] below; the renderer (Playwright) and the clock are the record
    [world].  Everything else is written out. *)

From Equations Require Import Equations.
From Stdlib Require Import ZArith QArith String Ascii.
From Stdlib Require DecimalFacts DecimalPos DecimalN.
From stdpp Require Import base numbers option list gmap.

Set Default Proof Using "Type*".
Local Open Scope N_scope.

(** ** Python strings *)

(** A [str] is the list of its code points.  The characters the program
    names are written by their code: 32 is the space, 37 the percent sign,
    43 the plus sign, 44 the comma, 45 the minus sign (and hyphen), 46 the
    point, 95 the underscore. *)
Abbreviation str := (list N).

Module Lit.
(** String literals of this file are written as Rocq strings, which are
    bytes; [u] decodes the UTF-8 of a literal into its code points. *)
Fixpoint bytes (s : string) : list N :=
  match s with
  | EmptyString => []
  | String a r => N_of_ascii a :: bytes r
  end.

Fixpoint utf8 (bs : list N) : str :=
  match bs with
  | [] => []
  | b :: r =>
      if b <? 128 then b :: utf8 r
      else if b <? 224 then
        match r with
        | b1 :: r1 => ((b - 192) * 64 + (b1 - 128)) :: utf8 r1
        | _ => []
        end
      else if b <? 240 then
        match r with
        | b1 :: b2 :: r2 =>
            ((b - 224) * 4096 + (b1 - 128) * 64 + (b2 - 128)) :: utf8 r2
        | _ => []
        end
      else
        match r with
        | b1 :: b2 :: b3 :: r3 =>
            ((b - 240) * 262144 + (b1 - 128) * 4096 + (b2 - 128) * 64
             + (b3 - 128)) :: utf8 r3
        | _ => []
        end
  end.

Definition u (s : string) : str := utf8 (bytes s).
End Lit.
Abbreviation u := Lit.u.
Arguments Lit.u s%_string.

(** ** The interpreter *)

(** The part of the Python runtime the program relies on and that is a table
    or a library routine rather than code of the repository.  The [db_]
    fields are consulted only for code points from 128 on that the source
    does not itself spell out; ASCII and the three currency symbols of
    [clean_text] are classified below. *)
Class Python := {
  (** [str.isspace], the [\s] of [re], the separators of [str.split] *)
  db_space : N → bool;
  (** the decimal digit value: [\d] of [re], the digits [Decimal] reads *)
  db_decimal : N → option N;
  (** [str.isalnum]: with the underscore, the [\w] of [re] *)
  db_alnum : N → bool;
  (** [str.lower] of one code point between what precedes and what follows
      it (the mapping may give several code points, and depends on the
      context for the final sigma) *)
  db_lower : str → N → str → str;
  (** [re.IGNORECASE]: does the text's code point match this pattern letter *)
  db_imatch : N → N → bool;
  (** no decimal digit is white space *)
  db_decimal_not_space : ∀ c, is_Some (db_decimal c) → db_space c = false;
  (** [float(s)]: the binary64 value of a decimal literal *)
  pyfloat : Type;
  float : str → pyfloat;
  (** [urllib.parse.quote] and [urllib.parse.urljoin]; [None] when they raise *)
  quote : str → option str;
  urljoin : str → str → option str;
}.

(** The least runtime the class allows: a database that classifies nothing
    beyond ASCII, [float] that keeps its literal, [quote] and [urljoin] that
    leave their argument as it is.  It serves to run the program on inputs
    that consult none of this. *)
Definition plain : Python := {|
  db_space := λ _, false;
  db_decimal := λ _, None;
  db_alnum := λ _, false;
  db_lower := λ _ c _, [c];
  db_imatch := λ _ _, false;
  db_decimal_not_space := λ _ _, eq_refl;
  pyfloat := str;
  float := id;
  quote := Some;
  urljoin := λ _ href, Some href;
|}.

Module Py.
Section Py.
Context `{Python}.

(** ₹ (U+20B9), € (U+20AC) and £ (U+00A3): currency symbols, neither
    white space, digits, letters nor cased. *)
Definition currency (c : N) : bool :=
  (c =? 8377) || (c =? 8364) || (c =? 163).

(** A property of a code point: written out for ASCII and for the currency
    symbols, looked up in the database otherwise. *)
Definition classify {A} (ascii : N → A) (symbol : A) (db : N → A) (c : N) : A :=
  if c <? 128 then ascii c else if currency c then symbol else db c.

Definition between (lo hi c : N) : bool := (lo <=? c) && (c <=? hi).

(** [c.isspace()]: in ASCII, TAB to CR, FS to US and the space *)
Definition isspace : N → bool :=
  classify (λ c, between 9 13 c || between 28 32 c) false db_space.

Definition decimal_value : N → option N :=
  classify (λ c, if between 48 57 c then Some (c - 48) else None) None db_decimal.

(** [c.isdecimal()], the [\d] of [re] *)
Definition isdecimal (c : N) : bool := bool_decide (is_Some (decimal_value c)).

Definition isalnum : N → bool :=
  classify (λ c, between 48 57 c || between 65 90 c || between 97 122 c)
           false db_alnum.

(** [\w] *)
Definition isword (c : N) : bool := isalnum c || (c =? 95).

(** [s.lower()] *)
Fixpoint lower_from (before s : str) : str :=
  match s with
  | [] => []
  | c :: r =>
      classify (λ c, if between 65 90 c then [c + 32] else [c]) [c]
               (λ c, db_lower before c r) c
      ++ lower_from (before ++ [c]) r
  end.
Definition lower (s : str) : str := lower_from [] s.

(** [s.replace(old, new)] for a one-character [old] *)
Definition replace (old : N) (new : str) (s : str) : str :=
  flat_map (λ c, if c =? old then new else [c]) s.

(** [s.startswith(p)] *)
Fixpoint startswith (p s : str) : bool :=
  match p, s with
  | [], _ => true
  | a :: p', b :: s' => (a =? b) && startswith p' s'
  | _ :: _, [] => false
  end.

(** [p in s] *)
Fixpoint contains (p s : str) : bool :=
  startswith p s || match s with [] => false | _ :: s' => contains p s' end.

(** [s.split()]: the maximal runs of characters that are not white space.
    A character that is not white space starts a token of its own when white
    space (or nothing) follows it, and joins the token that follows
    otherwise. *)
Definition starts_space (s : str) : bool :=
  match s with [] => true | c :: _ => isspace c end.

Definition push (c : N) (ts : list str) : list str :=
  match ts with [] => [[c]] | t :: ts' => (c :: t) :: ts' end.

Fixpoint split (s : str) : list str :=
  match s with
  | [] => []
  | c :: r =>
      if isspace c then split r
      else if starts_space r then [c] :: split r
      else push c (split r)
  end.

(** [sep.join(parts)] *)
Fixpoint join (sep : str) (parts : list str) : str :=
  match parts with
  | [] => []
  | [t] => t
  | t :: ts => t ++ sep ++ join sep ts
  end.

(** [s.strip()] *)
Fixpoint lstrip (s : str) : str :=
  match s with
  | [] => []
  | c :: r => if isspace c then lstrip r else s
  end.
Definition rstrip (s : str) : str := reverse (lstrip (reverse s)).
Definition strip (s : str) : str := rstrip (lstrip s).
End Py.
End Py.

(** ** Regular expressions

    The fragment of [re] the program uses, with the backtracking semantics
    of the library: quantifiers are greedy, alternatives are tried in order,
    [search] returns the leftmost match.  Quantifiers stand on single
    characters or classes only, as in every pattern of the source. *)
Module Re.
Inductive re :=
| Eps
| Chr (p : N → bool)          (* one character of a class *)
| Seq (a b : re)
| Alt (a b : re)
| Opt (a : re)                (* a? *)
| Star (p : N → bool)         (* [class]* *)
| Grp (a : re).               (* ( a ), the one capturing group *)

Definition Plus (p : N → bool) : re := Seq (Chr p) (Star p).

Section Exec.
Context {R : Type}.

(** Greedy repetition: the longest run first, then ever shorter ones. *)
Fixpoint star (p : N → bool) (s : str) (k : str → option R) : option R :=
  match s with
  | c :: s' =>
      if p c then
        match star p s' k with
        | Some r => Some r
        | None => k s
        end
      else k s
  | [] => k s
  end.

(** [exec r s g k]: match [r] at the head of [s], then continue with [k]
    on the rest of the input and the text captured so far. *)
Fixpoint exec (r : re) (s : str) (g : option str)
    (k : str → option str → option R) : option R :=
  match r with
  | Eps => k s g
  | Chr p =>
      match s with
      | c :: s' => if p c then k s' g else None
      | [] => None
      end
  | Seq a b => exec a s g (λ s' g', exec b s' g' k)
  | Alt a b =>
      match exec a s g k with
      | Some x => Some x
      | None => exec b s g k
      end
  | Opt a =>
      match exec a s g k with
      | Some x => Some x
      | None => k s g
      end
  | Star p => star p s (λ s', k s' g)
  | Grp a => exec a s g (λ s' _, k s' (Some (take (length s - length s') s)))
  end.
End Exec.

(** A match: the text of group 1 (when the group took part) and the input
    left after the match. *)
Record found := { group1 : option str; rest : str }.

(** [pattern.match(s)] *)
Definition match_here (r : re) (s : str) : option found :=
  exec r s None (λ s' g, Some {| group1 := g; rest := s' |}).

(** [re.search(pattern, s)] *)
Fixpoint search (r : re) (s : str) : option found :=
  match match_here r s with
  | Some m => Some m
  | None =>
      match s with
      | [] => None
      | _ :: s' => search r s'
      end
  end.

Section Classes.
Context `{Python}.

Definition lit (c : N) : N → bool := N.eqb c.

(** [\d], [\s], [\w] *)
Definition d : N → bool := Py.isdecimal.
Definition s : N → bool := Py.isspace.
Definition w : N → bool := Py.isword.

(** A pattern letter under [re.I].  The patterns of the source are
    lower-case ASCII. *)
Definition ignorecase (p c : N) : bool :=
  Py.classify (λ c, (if Py.between 65 90 c then c + 32 else c) =? p)
              false (db_imatch p) c.

(** A literal word of a pattern compiled with [re.I] *)
Fixpoint word (l : str) : re :=
  match l with
  | [] => Eps
  | [c] => Chr (ignorecase c)
  | c :: l' => Seq (Chr (ignorecase c)) (word l')
  end.

(** [(?:w1|w2|...)] *)
Fixpoint any_of (rs : list re) : re :=
  match rs with
  | [] => Chr (λ _, false)
  | [r] => r
  | r :: rs' => Alt r (any_of rs')
  end.

(** [re.sub(r'[^...]', '', s)]: delete the characters outside a class *)
Definition sub_outside (keep : N → bool) (s : str) : str := filter (λ c, keep c = true) s.
End Classes.
End Re.

(** ** decimal.Decimal

    A finite decimal is a sign, a coefficient and an exponent.  Arithmetic
    runs in the default context: 28 significant digits, rounding half to
    even, exponents from [Emin] = -999999 to [Emax] = 999999, with
    [Overflow] trapped and [Underflow], [Subnormal], [Inexact], [Rounded]
    and [Clamped] not.  [Decimal(s)] itself is exact, whatever the
    context. *)
Module Dec.
Record decimal := { sign : bool; coeff : N; exponent : Z }.


Section Parse.
Context `{Python}.

(** The digits of a literal, most significant first *)
Fixpoint digits (acc : N) (s : str) : option N :=
  match s with
  | [] => Some acc
  | c :: r =>
      match Py.decimal_value c with
      | Some v => digits (10 * acc + v) r
      | None => None
      end
  end.

(** Split a literal at its first decimal point *)
Fixpoint at_point (s : str) : str * option str :=
  match s with
  | [] => ([], None)
  | c :: r =>
      if c =? 46 then ([], Some r)
      else let '(i, f) := at_point r in (c :: i, f)
  end.

(** [Decimal(s)] for the spellings sign, digits, point, digits with a digit
    on at least one side of the point; [None] is [InvalidOperation] (the
    spellings with an exponent, the infinities and the NaNs are read as
    [None] as well: the program never passes one). *)
Definition Decimal (s : str) : option decimal :=
  let '(neg, body) :=
    match s with
    | c :: r => if c =? 45 then (true, r) else if c =? 43 then (false, r) else (false, s)
    | [] => (false, s)
    end in
  let '(int, frac) := at_point body in
  let frac := default [] frac in
  if bool_decide (int = [] ∧ frac = []) then None
  else
    c ← digits 0 (int ++ frac);
    Some {| sign := neg; coeff := c; exponent := - Z.of_nat (length frac) |}.
End Parse.

(** [len(str(n))] *)
Definition ndigits (n : N) : nat := Decimal.nb_digits (N.to_uint n).

Definition prec : nat := 28.

(** The exponent limits of the context, and the least and the greatest
    exponent of a result of [prec] digits ([Context.Etiny], [Context.Etop]) *)
Definition Emax : Z := 999999.
Definition Emin : Z := -999999.
Definition Etiny : Z := Emin - Z.of_nat prec + 1.
Definition Etop : Z := Emax - Z.of_nat prec + 1.

(** Drop the last [k] digits of [c], rounding half to even *)
Definition round_half_even (c : N) (k : nat) : N :=
  let p := 10 ^ N.of_nat k in
  let q := c / p in
  let r := c mod p in
  if 2 * r <? p then q
  else if p <? 2 * r then q + 1
  else if N.even q then q else q + 1.

(** [Decimal._fix(context)], the context's rounding of the exact result of
    an operation.  A zero has its exponent brought within the limits.
    Otherwise [exp_min] is the exponent of the result with [prec] digits,
    and no less than [Etiny]; digits below it are rounded away, a carry to
    [prec + 1] digits drops one digit more, and a result beyond [Emax] is
    [decimal.Overflow], which the context traps: [None]. *)
Definition _fix (x : decimal) : option decimal :=
  if coeff x =? 0 then
    Some {| sign := sign x; coeff := 0;
            exponent := Z.min (Z.max (exponent x) Etiny) Emax |}
  else
    let exp_min := (Z.of_nat (ndigits (coeff x)) + exponent x - Z.of_nat prec)%Z in
    if (Etop <? exp_min)%Z then None
    else
      let exp_min := Z.max exp_min Etiny in
      if (exponent x <? exp_min)%Z then
        let q := round_half_even (coeff x) (Z.to_nat (exp_min - exponent x)) in
        let '(q, exp_min) :=
          if (prec <? ndigits q)%nat then (q / 10, (exp_min + 1)%Z) else (q, exp_min) in
        if (Etop <? exp_min)%Z then None
        else Some {| sign := sign x; coeff := q; exponent := exp_min |}
      else Some x.

(** [x * y]: the exact product, then the context; [None] when it raises
    [decimal.Overflow] *)
Definition mul (x y : decimal) : option decimal :=
  _fix {| sign := xorb (sign x) (sign y);
          coeff := coeff x * coeff y;
          exponent := exponent x + exponent y |}.

(** [Decimal('d...d')] for a literal of ASCII digits *)
Definition of_N (n : N) : decimal := {| sign := false; coeff := n; exponent := 0 |}.
End Dec.
Abbreviation decimal := Dec.decimal.

(** A call either returns or raises. *)
Inductive outcome (A : Type) :=
| Returns (a : A)
| Raises.
Arguments Returns {A} a.
Arguments Raises {A}.

(** ** FinancialDataParser *)
Module FinancialDataParser.
Import Re.
Section Parser.
Context `{Python}.

(** [-?\d+\.?\d*] and the group around it, [(-?\d+\.?\d* )] *)
Definition number_body : re :=
  Seq (Opt (Chr (lit 45)))                   (* -? *)
    (Seq (Plus d)                            (* \d+ *)
       (Seq (Opt (Chr (lit 46)))             (* \.? *)
          (Star d))).                        (* \d* *)

Definition number_re : re := Grp number_body.

(** [(-?\d+\.?\d* )\s*%] *)
Definition percentage_re : re :=
  Seq number_re (Seq (Star s) (Chr (lit 37))).   (* \s* then % *)

Definition extract_percentage (text : str) : outcome (option pyfloat) :=
  if bool_decide (text = []) then Returns None
  else
    match search percentage_re text with
    | None => Returns None
    | Some m =>
        match group1 m with
        | Some lit => Returns (Some (float lit))
        | None => Raises
        end
    end.

Definition multipliers : list (str * decimal) :=
  [ (u "cr", Dec.of_N 10000000);
    (u "crore", Dec.of_N 10000000);
    (u "lakh", Dec.of_N 100000);
    (u "lakhs", Dec.of_N 100000);
    (u "million", Dec.of_N 1000000);
    (u "mn", Dec.of_N 1000000);
    (u "billion", Dec.of_N 1000000000);
    (u "bn", Dec.of_N 1000000000) ].

(** The loop over [multipliers.items()], left at the first unit found;
    [None] when the multiplication raises *)
Fixpoint apply_multiplier (units : list (str * decimal)) (text : str)
    (amount : decimal) : option decimal :=
  match units with
  | [] => Some amount
  | (unit, multiplier) :: units' =>
      if Py.contains unit text then Dec.mul amount multiplier
      else apply_multiplier units' text amount
  end.

Definition extract_amount (text : str) : outcome (option decimal) :=
  if bool_decide (text = []) then Returns None
  else
    let text := Py.lower (Py.replace 44 [] text) in   (* replace(',', '').lower() *)
    match search number_re text with
    | None => Returns None
    | Some number_match =>
        match group1 number_match ≫= Dec.Decimal with
        | None => Raises
        | Some amount =>
            match apply_multiplier multipliers text amount with
            | Some amount => Returns (Some amount)
            | None => Raises
            end
        end
    end.

(** The class [\w\s%₹$€£.-] whose complement [clean_text] deletes *)
Definition kept (c : N) : bool :=
  w c || s c || bool_decide (c ∈ u "%₹$€£.-").

Definition clean_text (text : str) : str :=
  if bool_decide (text = []) then []
  else
    let text := Py.join (u " ") (Py.split text) in
    let text := sub_outside kept text in
    Py.strip text.
End Parser.
End FinancialDataParser.

(** ** The parsed document (BeautifulSoup)

    A document is a tree of tags and strings.  A string is a
    [NavigableString] or an object of one of its subclasses: which one the
    parser makes of a piece of markup (a comment, the content of a script)
    is the parser's business and comes with the tree.  The functions below
    are the queries of the library the agent uses. *)
Module Soup.
(** The subclasses of [NavigableString] *)
Inductive string_class :=
| CData | Comment | Declaration | Doctype | ProcessingInstruction
| Script | Stylesheet | TemplateString | RubyTextString | RubyParenthesisString.

#[warnings="-register-all"]
Inductive node :=
| Text (s : str)                             (* a NavigableString *)
| Special (class : string_class) (s : str)   (* a string of a subclass *)
| Tag (name : str) (attrs : list (str * str)) (contents : list node).

(** [tag.descendants], in document order *)
Fixpoint descendants (n : node) : list node :=
  match n with
  | Text _ | Special _ _ => []
  | Tag _ _ cs => flat_map (λ c, c :: descendants c) cs
  end.

(** [tag.string]: the text of a tag whose content is a single string, of
    whatever class, or a single tag that has such a string *)
Fixpoint string (n : node) : option str :=
  match n with
  | Text s | Special _ s => Some s
  | Tag _ _ [c] => string c
  | Tag _ _ _ => None
  end.

Section Queries.
Context `{Python}.

(** [tag.get_text(strip=True)] of a tag such as [div], [p], [td], [tr] or
    [li]: the strings under it whose class is [NavigableString] or [CData]
    exactly, stripped, those left empty skipped, concatenated.  Comments,
    scripts, style sheets and the other classes are passed over. *)
Definition get_text_strip (n : node) : str :=
  flat_map (λ d, match d with
                 | Text s | Special CData s => Py.strip s
                 | Special _ _ | Tag _ _ _ => []
                 end)
           (descendants n).

(** [tag.find_all(names, text=pattern, attr=True)]: the descendant tags with
    one of the names, whose [string] the pattern finds a match in, and that
    carry the attribute *)
Definition find_all (names : list str) (text : option Re.re) (attr : option str)
    (n : node) : list node :=
  List.filter
    (λ d, match d with
          | Text _ | Special _ _ => false
          | Tag name attrs _ =>
              bool_decide (name ∈ names)
              && match text with
                 | None => true
                 | Some pattern =>
                     match string d with
                     | Some s => bool_decide (is_Some (Re.search pattern s))
                     | None => false
                     end
                 end
              && match attr with
                 | None => true
                 | Some a => bool_decide (a ∈ attrs.*1)
                 end
          end)
    (descendants n).

(** [tag.find(text=pattern)]: the first string under the tag, of whatever
    class, the pattern finds a match in *)
Definition find_text (pattern : Re.re) (n : node) : option str :=
  head (omap (λ d, match d with
                   | Text s | Special _ s =>
                       if bool_decide (is_Some (Re.search pattern s))
                       then Some s else None
                   | Tag _ _ _ => None
                   end)
             (descendants n)).

(** [tag[attr]] *)
Definition get_attr (a : str) (n : node) : option str :=
  match n with
  | Text _ | Special _ _ => None
  | Tag _ attrs _ => snd <$> List.find (λ kv, bool_decide (kv.1 = a)) attrs
  end.
End Queries.
End Soup.

(** ** StockDataAgent *)
Module StockDataAgent.
Import Re.

Inductive data_type := growth_rate | performance | marginal_changes | capex.

#[export] Instance data_type_eq_dec : EqDecision data_type.
Proof. solve_decision. Defined.

(** The record [extract_data_from_url] returns *)
Record data := { url : str; timestamp : str; text_data : list str }.

(** An element of [data_points]: [{'company': .., 'source': .., **data}] *)
Record entry := {
  company : str;
  source : str;
  entry_url : str;
  entry_timestamp : str;
  entry_text_data : list str;
}.

(** What [page.goto] does: the page loads ([content] is what
    [page.content()] then parses to, [None] when reading it raises), the
    navigation times out, or it fails otherwise. *)
Inductive navigation :=
| Loaded (content : option Soup.node)
| TimedOut
| Failed.

(** The renderer and the clock: the outcome of the [n]-th navigation of the
    run, asked for a URL, and [datetime.now().isoformat()] after [n]
    navigations. *)
Record world := {
  goto : nat → str → navigation;
  now : nat → str;
}.

Inductive level := INFO | WARNING | ERROR.

(** The effects of a run, in the order they happen *)
Inductive event :=
| Navigate (url : str) (timeout : N)      (* page.goto(url, timeout=..) *)
| Sleep (seconds : N)                     (* asyncio.sleep(n) *)
| SleepRandom (seconds : N)               (* asyncio.sleep(n + random.random()) *)
| Log (l : level) (about : str).          (* logger.info / warning / error *)

(** The agent ([self]), the page it drives, and the effects so far *)
Record state := {
  target_sites : list (str * str);
  data_points : data_type → list entry;
  collected_urls : gset str;
  max_retries : nat;
  timeout : N;
  page : option Soup.node;
  navigations : nat;
  trace : list event;
}.

(** [StockDataAgent.__init__] *)
Definition init : state := {|
  target_sites :=
    [ (u "moneycontrol", u "https://www.moneycontrol.com");
      (u "screener", u "https://www.screener.in");
      (u "investing_india", u "https://in.investing.com");
      (u "economic_times", u "https://economictimes.indiatimes.com");
      (u "tickertape", u "https://www.tickertape.in") ];
  data_points := λ _, [];
  collected_urls := ∅;
  max_retries := 3;
  timeout := 15000;
  page := None;
  navigations := 0;
  trace := [];
|}.

(** [self.data_points.keys()], in the order of the dictionary *)
Definition keys : list data_type := [growth_rate; performance; marginal_changes; capex].

Definition emit (e : event) (st : state) : state :=
  {| target_sites := target_sites st; data_points := data_points st;
     collected_urls := collected_urls st; max_retries := max_retries st;
     timeout := timeout st; page := page st; navigations := navigations st;
     trace := trace st ++ [e] |}.

(** One call of [page.goto]: the event, one more navigation *)
Definition navigate (url : str) (st : state) : state :=
  {| target_sites := target_sites st; data_points := data_points st;
     collected_urls := collected_urls st; max_retries := max_retries st;
     timeout := timeout st; page := page st; navigations := S (navigations st);
     trace := trace st ++ [Navigate url (timeout st)] |}.

Definition set_page (content : option Soup.node) (st : state) : state :=
  {| target_sites := target_sites st; data_points := data_points st;
     collected_urls := collected_urls st; max_retries := max_retries st;
     timeout := timeout st; page := content; navigations := navigations st;
     trace := trace st |}.

(** [self.collected_urls.add(url)] *)
Definition collect (url : str) (st : state) : state :=
  {| target_sites := target_sites st; data_points := data_points st;
     collected_urls := {[ url ]} ∪ collected_urls st; max_retries := max_retries st;
     timeout := timeout st; page := page st; navigations := navigations st;
     trace := trace st |}.

(** [self.data_points[data_type].append(e)] *)
Definition append (k : data_type) (e : entry) (st : state) : state :=
  {| target_sites := target_sites st;
     data_points := λ k', if decide (k' = k) then data_points st k' ++ [e]
                          else data_points st k';
     collected_urls := collected_urls st; max_retries := max_retries st;
     timeout := timeout st; page := page st; navigations := navigations st;
     trace := trace st |}.

Section Agent.
Context `{Python}.
Variable w : world.

(** [safe_goto]: one navigation; on a timeout, a warning, a pause of
    [2 * (retries + 1)] and another attempt while [retries < max_retries]. *)
Equations safe_goto (url : str) (retries : nat) (st : state) : bool * state
  by wf (max_retries st - retries)%nat lt :=
safe_goto url retries st with goto w (navigations st) url := {
  | Loaded content =>
      (true, emit (Sleep 2) (set_page content (navigate url st)));
  | TimedOut with decide (retries < max_retries st)%nat := {
      | left _ =>
          safe_goto url (S retries)
            (emit (Sleep (2 * (N.of_nat retries + 1)))
               (emit (Log WARNING url) (navigate url st)));
      | right _ => (false, emit (Log ERROR url) (navigate url st)) };
  | Failed => (false, emit (Log ERROR url) (navigate url st)) }.
Next Obligation. simpl. lia. Qed.

(** The search pattern of each data type, compiled with [re.I] *)
Definition patterns (data_type : data_type) : re :=
  match data_type with
  | growth_rate =>
      any_of [word (u "growth"); word (u "increase"); word (u "yoy"); word (u "cagr");
              Seq (word (u "growth")) (Seq (Plus s) (word (u "rate")))]
  | performance =>
      any_of [word (u "performance"); word (u "return"); word (u "metric");
              word (u "profit"); word (u "revenue")]
  | marginal_changes =>
      any_of [word (u "qoq"); word (u "yoy"); word (u "quarter"); word (u "year");
              word (u "change")]
  | capex =>
      any_of [word (u "capex");
              Seq (word (u "capital")) (Seq (Plus s) (word (u "expenditure")));
              word (u "investment")]
  end.

(** The elements searched: the block elements whose string matches, then
    every row and cell of each table that holds a matching text *)
Definition elements (pattern : re) (soup : Soup.node) : list Soup.node :=
  Soup.find_all [u "div"; u "p"; u "td"; u "tr"; u "li"] (Some pattern) None soup
  ++ flat_map
       (λ table, if bool_decide (is_Some (Soup.find_text pattern table))
                 then Soup.find_all [u "tr"; u "td"] None None table
                 else [])
       (Soup.find_all [u "table"] None None soup).

(** The loop that extracts and cleans the text of the elements *)
Definition add_text (text_data : list str) (elem : Soup.node) : list str :=
  let text := Soup.get_text_strip elem in
  if bool_decide (text ≠ []) && bool_decide (10 < length (Py.strip text))%nat then
    let cleaned_text := FinancialDataParser.clean_text text in
    if bool_decide (cleaned_text ∈ text_data) then text_data
    else text_data ++ [cleaned_text]
  else text_data.

Definition extract_data_from_url (url : str) (data_type : data_type) (st : state)
    : option data * state :=
  if bool_decide (url ∈ collected_urls st) then (None, st)
  else
    let '(ok, st) := safe_goto url 0 st in
    if negb ok then (None, st)
    else
      match page st with
      | None => (None, emit (Log ERROR url) st)
      | Some soup =>
          let text_data := foldl add_text [] (elements (patterns data_type) soup) in
          if bool_decide (text_data ≠ []) then
            (Some {| url := url; timestamp := now w (navigations st);
                     text_data := text_data |},
             collect url st)
          else (None, st)
      end.

(** The address searched on a site; [None] when building it raises *)
Definition search_url (site_name base_url company_name : str) : option str :=
  if bool_decide (site_name = u "moneycontrol") then
    Some (base_url ++ u "/stocks/company-info/" ++ Py.replace 32 (u "-") company_name)
  else if bool_decide (site_name = u "screener") then
    Some (base_url ++ u "/company/" ++ Py.replace 32 (u "-") company_name)
  else
    search_query ← quote (company_name ++ u " stock financial results");
    Some (base_url ++ u "/search?q=" ++ search_query).

(** The loop over the links of the search page; [None] when it raises *)
Fixpoint relevant_urls (base_url company_name : str) (links : list Soup.node)
    : option (list str) :=
  match links with
  | [] => Some []
  | link :: links' =>
      href ← Soup.get_attr (u "href") link;
      href ← (if Py.startswith (u "http") href then Some href
              else urljoin base_url href);
      more ← relevant_urls base_url company_name links';
      Some (if existsb (λ keyword, Py.contains keyword (Py.lower href))
                 [u "stock"; u "company"; u "financial"; u "share"; u "quote";
                  Py.replace 32 (u "-") (Py.lower company_name)]
            then href :: more else more)
  end.

(** One data type tested on one URL (the body of the inner loop) *)
Definition test_data_type (company_name site_name url : str) (st : state)
    (data_type : data_type) : state :=
  let '(data, st) := extract_data_from_url url data_type st in
  match data with
  | Some d =>
      append data_type
        {| company := company_name; source := site_name; entry_url := d.(StockDataAgent.url);
           entry_timestamp := timestamp d; entry_text_data := text_data d |} st
  | None => st
  end.

(** One relevant URL: every data type in turn, then a pause *)
Definition process_url (company_name site_name : str) (st : state) (url : str) : state :=
  emit (SleepRandom 1) (foldl (test_data_type company_name site_name url) st keys).

(** One site (the body of the loop of [scrape_company], with its handler) *)
Definition scrape_site (company_name : str) (st : state) (site : str * str) : state :=
  let '(site_name, base_url) := site in
  match search_url site_name base_url company_name with
  | None => emit (Log ERROR site_name) st
  | Some search_url =>
      let '(ok, st) := safe_goto search_url 0 st in
      if negb ok then st
      else
        let st := emit (SleepRandom 1) st in
        match page st with
        | None => emit (Log ERROR site_name) st
        | Some soup =>
            let links := Soup.find_all [u "a"] None (Some (u "href")) soup in
            match relevant_urls base_url company_name links with
            | None => emit (Log ERROR site_name) st
            | Some relevant => foldl (process_url company_name site_name) st (take 3 relevant)
            end
        end
  end.

Definition scrape_company (company_name : str) (st : state) : state :=
  foldl (scrape_site company_name) st (target_sites st).

(** [run]: the companies in turn; the result is [data_points] of the final
    state *)
Definition run (companies : list str) (st : state) : state :=
  foldl (λ st company,
           emit (SleepRandom 2) (scrape_company company (emit (Log INFO company) st)))
        st companies.
End Agent.
End StockDataAgent.

(** ** The specification's reading of the quantity parser

    What the specification says in words ("the first signed decimal", "the
    first matching unit's factor"), written as direct scans of the text, to
    be compared with the regular expressions and the loop of the code. *)
Module Spec.
Section Spec.
Context `{Python}.

(** The longest run of characters of a class at the head of a text, and
    what follows it *)
Fixpoint leading (p : N → bool) (s : str) : str :=
  match s with
  | c :: r => if p c then c :: leading p r else []
  | [] => []
  end.

Fixpoint after (p : N → bool) (s : str) : str :=
  match s with
  | c :: r => if p c then after p r else s
  | [] => []
  end.

(** One given character at the head, if it is there *)
Definition optional (c : N) (s : str) : str * str :=
  match s with
  | x :: r => if x =? c then ([c], r) else ([], s)
  | [] => ([], s)
  end.

(** A signed decimal at the head of a text (an optional minus sign, digits,
    an optional point, more digits): its text and what follows it *)
Definition signed_decimal_at (s : str) : option (str * str) :=
  let '(minus, s1) := optional 45 s in
  let int := leading Py.isdecimal s1 in
  if bool_decide (int = []) then None
  else
    let '(point, s2) := optional 46 (after Py.isdecimal s1) in
    Some (minus ++ int ++ point ++ leading Py.isdecimal s2, after Py.isdecimal s2).

(** The first signed decimal of a text *)
Fixpoint first_signed_decimal (s : str) : option str :=
  match signed_decimal_at s with
  | Some (t, _) => Some t
  | None =>
      match s with
      | [] => None
      | _ :: r => first_signed_decimal r
      end
  end.

(** A signed decimal at the head of a text that white space, if any, and
    then a percent sign follow *)
Definition percentage_at (s : str) : option str :=
  '(t, r) ← signed_decimal_at s;
  match after Py.isspace r with
  | c :: _ => if c =? 37 then Some t else None
  | [] => None
  end.

Fixpoint first_percentage (s : str) : option str :=
  match percentage_at s with
  | Some t => Some t
  | None =>
      match s with
      | [] => None
      | _ :: r => first_percentage r
      end
  end.

(** The factor of the first unit keyword present, in the order crore, lakh,
    million, billion *)
Definition unit_factor (text : str) : option N :=
  if Py.contains (u "cr") text || Py.contains (u "crore") text then Some 10000000
  else if Py.contains (u "lakh") text || Py.contains (u "lakhs") text then Some 100000
  else if Py.contains (u "million") text || Py.contains (u "mn") text then Some 1000000
  else if Py.contains (u "billion") text || Py.contains (u "bn") text then Some 1000000000
  else None.

(** What the rest of a pattern must be like for the number before it to be
    read greedily: it always matches, or it matches nothing that starts with
    a digit or a point. *)
Definition stops_early {R} (k : str → option R) : Prop :=
  (∀ s', is_Some (k s')) ∨
  (∀ c s', Py.isdecimal c = true ∨ c = 46 → k (c :: s') = None).

(** A token of [split]: not empty, and free of white space *)
Definition token (t : str) : Prop := t ≠ [] ∧ Forall (λ c, Py.isspace c = false) t.

(** The characters [clean_text] lets through *)
Definition clean (s : str) : Prop := Forall (λ c, FinancialDataParser.kept c = true) s.
End Spec.
End Spec.

(** ** The run, as the specification speaks of it *)
Module Run.
Import StockDataAgent.

(** The agent with other target sites ([agent.target_sites = ...]) *)
Definition with_target_sites (sites : list (str * str)) (st : state) : state :=
  {| target_sites := sites; data_points := data_points st;
     collected_urls := collected_urls st; max_retries := max_retries st;
     timeout := timeout st; page := page st; navigations := navigations st;
     trace := trace st |}.

(** The number of records of the aggregate, over the four categories, that
    come from a URL *)
Definition records (url : str) (st : state) : nat :=
  sum_list (map (λ k, length (List.filter (λ e, bool_decide (entry_url e = url))
                                          (data_points st k))) keys).

(** The visited set and the aggregate agree: a visited URL has exactly one
    record, any other URL has none, and no record is empty. *)
Definition consistent (st : state) : Prop :=
  (∀ url, records url st = if bool_decide (url ∈ collected_urls st) then 1%nat else 0%nat)
  ∧ (∀ k e, e ∈ data_points st k → entry_text_data e ≠ []).

(** Two states with the same agent: they differ in the page, the count of
    navigations and the trace at most. *)
Definition same_agent (st st' : state) : Prop :=
  target_sites st' = target_sites st ∧ data_points st' = data_points st
  ∧ collected_urls st' = collected_urls st ∧ max_retries st' = max_retries st
  ∧ timeout st' = timeout st.

(** What a run is made of: an effect, a fetch, a data type tested on a URL *)
Inductive step `{Python} (w : world) : state → state → Prop :=
| step_emit e st : step w st (emit e st)
| step_fetch url retries st : step w st (safe_goto w url retries st).2
| step_test company_name site_name url k st :
    step w st (test_data_type w company_name site_name url st k).

(** The events of a fetch whose attempts all time out, [n] retries being
    left after the attempt numbered [first] *)
Fixpoint timeouts (url : str) (timeout : N) (first n : nat) : list event :=
  match n with
  | O => [Navigate url timeout; Log ERROR url]
  | S n' =>
      [Navigate url timeout; Log WARNING url; Sleep (2 * (N.of_nat first + 1))]
      ++ timeouts url timeout (S first) n'
  end.

(** *** Scenes *)

(** A renderer that times out on every navigation *)
Definition unreachable : world := {| goto := λ _ _, TimedOut; now := λ _, u "now" |}.

(** One site, whose search page links to one document with a single table
    cell *)
Definition cell : str := u "Capex grew 12% YoY to ₹500 crore".
Definition moneycontrol : str * str := (u "moneycontrol", u "https://www.moneycontrol.com").
Definition results_url : str := u "https://www.moneycontrol.com/stock/tcs".

Definition search_page : Soup.node :=
  Soup.Tag (u "[document]") []
    [Soup.Tag (u "a") [(u "href", results_url)] [Soup.Text (u "TCS")]].

Definition results_page : Soup.node :=
  Soup.Tag (u "[document]") []
    [Soup.Tag (u "table") []
       [Soup.Tag (u "tr") [] [Soup.Tag (u "td") [] [Soup.Text cell]]]].

Definition one_site : world := {|
  goto := λ _ url,
    if bool_decide (url = u "https://www.moneycontrol.com/stocks/company-info/TCS")
    then Loaded (Some search_page)
    else if bool_decide (url = results_url) then Loaded (Some results_page)
    else Failed;
  now := λ _, u "now";
|}.

(** The agent of the end-to-end scenario: one target site *)
Definition one_site_agent : state := with_target_sites [moneycontrol] init.

(** A document with a paragraph that is mostly punctuation, and a table
    with a matching cell and a cell of twelve exclamation marks *)
Definition punctuation_page : Soup.node :=
  Soup.Tag (u "[document]") []
    [Soup.Tag (u "p") [] [Soup.Text (u "Growth!!!!!!!")];
     Soup.Tag (u "table") []
       [Soup.Tag (u "tr") [] [Soup.Tag (u "td") [] [Soup.Text (u "yoy")]];
        Soup.Tag (u "tr") [] [Soup.Tag (u "td") [] [Soup.Text (u "!!!!!!!!!!!!")]]]].

(** The same table alone *)
Definition punctuation_table : Soup.node :=
  Soup.Tag (u "[document]") []
    [Soup.Tag (u "table") []
       [Soup.Tag (u "tr") [] [Soup.Tag (u "td") [] [Soup.Text (u "yoy")]];
        Soup.Tag (u "tr") [] [Soup.Tag (u "td") [] [Soup.Text (u "!!!!!!!!!!!!")]]]].

Definition punctuation : world := {|
  goto := λ _ url,
    if bool_decide (url = u "https://example.com/a") then Loaded (Some punctuation_page)
    else if bool_decide (url = u "https://example.com/b") then Loaded (Some punctuation_table)
    else Failed;
  now := λ _, u "now";
|}.
End Run.

(** ** save_results

    The files the agent writes, as the sequence of operations asked of the
    file system: the directories made, the snapshot handed to [json.dump],
    the records handed to [DataFrame(...).to_csv].  The serialisations are
    those of the libraries and are not spelled out; a file operation that
    raises ends [save_results] where it stands. *)
Module ResultWriter.
Import StockDataAgent.

(** The key of a data type in [data_points] *)
Definition key (k : data_type) : str :=
  match k with
  | growth_rate => u "growth_rate"
  | performance => u "performance"
  | marginal_changes => u "marginal_changes"
  | capex => u "capex"
  end.

Inductive file_op :=
| Makedirs (path : str)                   (* os.makedirs(path, exist_ok=True) *)
| DumpJson (path : str) (company_data : list (data_type * list entry))
                                          (* json.dump(company_data, open(path, 'w')) *)
| ToCsv (path : str) (items : list entry) (* pd.DataFrame(items).to_csv(path) *)
| Info (company_name company_dir : str).  (* logger.info *)

(** What a sequence of operations puts on disk: the records of a category
    in the snapshots dumped, the rows of the CSV files, the files written,
    and the companies reported as saved *)
Definition dumped (k : data_type) (ops : list file_op) : list entry :=
  flat_map (λ op, match op with
                  | DumpJson _ data =>
                      flat_map (λ '(k', items), if decide (k' = k) then items else []) data
                  | _ => []
                  end) ops.

Definition csv_rows (ops : list file_op) : list entry :=
  flat_map (λ op, match op with ToCsv _ items => items | _ => [] end) ops.

Definition reported (ops : list file_op) : list str :=
  flat_map (λ op, match op with Info company_name _ => [company_name] | _ => [] end) ops.

Section Save.
(** [os.path.join] *)
Variable path_join : str → str → str.

(** [set(item['company'] for items in self.data_points.values()
         for item in items)] *)
Definition companies (st : state) : gset str :=
  list_to_set (flat_map (λ k, map company (data_points st k)) keys).

(** [{data_type: [item for item in items if item['company'] == company]
      for data_type, items in self.data_points.items()}] *)
Definition company_data (st : state) (company_name : str)
    : list (data_type * list entry) :=
  map (λ k, (k, filter (λ item, company item = company_name) (data_points st k))) keys.

(** The body of the loop over the companies *)
Definition save_company (st : state) (output_dir timestamp company_name : str)
    : list file_op :=
  let company_dir := path_join output_dir (Py.replace 32 (u "_") company_name) in
  let data := company_data st company_name in
  [ Makedirs company_dir;
    DumpJson (path_join company_dir (u "raw_data_" ++ timestamp ++ u ".json")) data ]
  ++ flat_map
       (λ '(k, items),
          if bool_decide (items ≠ []) then
            [ToCsv (path_join company_dir (key k ++ u "_" ++ timestamp ++ u ".csv")) items]
          else [])
       data
  ++ [Info company_name company_dir].

(** [save_results(output_dir)], [timestamp] being the clock read at its
    start.  The order in which Python goes through the set of companies is
    not specified; the model takes the order of stdpp's [elements]. *)
Definition save_results (st : state) (output_dir timestamp : str) : list file_op :=
  Makedirs output_dir
  :: flat_map (save_company st output_dir timestamp) (base.elements (companies st)).
End Save.
End ResultWriter.

(** ** More notions of the run *)
Module More.
Import StockDataAgent.
Section More.
Context `{Python}.

(** The number of records of the aggregate *)
Definition total_records (st : state) : nat :=
  sum_list (map (λ k, length (data_points st k)) keys).

(** The keywords a relevant link holds one of *)
Definition keywords (company_name : str) : list str :=
  [u "stock"; u "company"; u "financial"; u "share"; u "quote";
   Py.replace 32 (u "-") (Py.lower company_name)].

(** The address of a link of the search page, made absolute *)
Definition resolve (base_url : str) (link : Soup.node) : option str :=
  href ← Soup.get_attr (u "href") link;
  if Py.startswith (u "http") href then Some href else urljoin base_url href.

(** What the loop over the elements keeps in [text_data]: the cleaned text
    of an element whose raw text is longer than ten characters *)
Definition fragment_of (els : list Soup.node) (f : str) : Prop :=
  ∃ elem, elem ∈ els
          ∧ (10 < length (Py.strip (Soup.get_text_strip elem)))%nat
          ∧ f = FinancialDataParser.clean_text (Soup.get_text_strip elem).

(** Does a link hold one of the keywords *)
Definition has_keyword (company_name href : str) : bool :=
  existsb (λ keyword, Py.contains keyword (Py.lower href)) (keywords company_name).

(** [n] retries of a fetch, numbered from [first]: a navigation, a warning,
    a pause *)
Fixpoint retried (url : str) (timeout : N) (first n : nat) : list event :=
  match n with
  | O => []
  | S n' =>
      [Navigate url timeout; Log WARNING url; Sleep (2 * (N.of_nat first + 1))]
      ++ retried url timeout (S first) n'
  end.
End More.

(** The seconds slept in a sequence of events, the random parts left out *)
Fixpoint paused (l : list event) : N :=
  match l with
  | [] => 0
  | Sleep n :: l' => n + paused l'
  | SleepRandom n :: l' => n + paused l'
  | _ :: l' => paused l'
  end.

(** A renderer whose first two navigations time out and whose later ones
    load a page *)
Definition flaky : world := {|
  goto := λ n _, if bool_decide (n < 2)%nat then TimedOut else Loaded (Some Run.results_page);
  now := λ _, u "now";
|}.

(** A table whose cell holds a script and a text, and a table whose cell
    holds a comment only *)
Definition scripted_page : Soup.node :=
  Soup.Tag (u "[document]") []
    [Soup.Tag (u "table") []
       [Soup.Tag (u "tr") []
          [Soup.Tag (u "td") []
             [Soup.Special Soup.Script (u "var yoy = 1;");
              Soup.Text (u "A fairly long cell text")]]]].

Definition commented_page : Soup.node :=
  Soup.Tag (u "[document]") []
    [Soup.Tag (u "table") []
       [Soup.Tag (u "tr") []
          [Soup.Tag (u "td") [] [Soup.Special Soup.Comment (u " growth of the year ")]]]].

(** An agent that holds a record of a company "A B" and a record of a
    company "A_B", and [os.path.join] on a system where the separator is a
    slash *)
Definition record_of (company_name : str) : entry :=
  {| company := company_name; source := u "moneycontrol";
     entry_url := u "https://example.com/" ++ company_name;
     entry_timestamp := u "now"; entry_text_data := [u "Capex of the year"] |}.

Definition namesakes : state :=
  append growth_rate (record_of (u "A_B")) (append capex (record_of (u "A B")) init).

Definition slash (a b : str) : str := a ++ u "/" ++ b.

Definition scripted : world := {|
  goto := λ _ url,
    if bool_decide (url = u "https://example.com/script") then Loaded (Some scripted_page)
    else if bool_decide (url = u "https://example.com/comment")
         then Loaded (Some commented_page)
    else Failed;
  now := λ _, u "now";
|}.
End More.

(** ** What a run may change *)
Module Grow.
Import StockDataAgent More.

(** What a part of a run may do to the agent: the settings stay, at most
    [dn] navigations and [dr] records are added, and the aggregate, the
    visited set and the trace only grow. *)
Definition within (dn dr : nat) (st st' : state) : Prop :=
  (max_retries st' = max_retries st ∧ target_sites st' = target_sites st
   ∧ timeout st' = timeout st)
  ∧ (navigations st ≤ navigations st' ≤ navigations st + dn)%nat
  ∧ (total_records st' ≤ total_records st + dr)%nat
  ∧ trace st `prefix_of` trace st'
  ∧ collected_urls st ⊆ collected_urls st'.

(** The records a part of a run adds come after those it found, and each
    satisfies [P] *)
Definition adds (P : entry → Prop) (st st' : state) : Prop :=
  ∀ k, ∃ new, data_points st' k = data_points st k ++ new ∧ Forall P new.
End Grow.

(** * Properties *)

(** ** Characters *)
Section Chars.
Context `{Python}.

Lemma isdecimal_true c : Py.isdecimal c = true ↔ is_Some (Py.decimal_value c).
Proof. unfold Py.isdecimal. apply bool_decide_eq_true. Qed.

Lemma ascii_or_not c : c < 128 ∨ 128 ≤ c.
Proof. lia. Qed.

Lemma isdecimal_not_space c : Py.isdecimal c = true → Py.isspace c = false.
Proof.
  rewrite isdecimal_true. unfold Py.decimal_value, Py.isspace, Py.classify.
  destruct (c <? 128) eqn:Hc.
  - unfold Py.between. intros [v Hv].
    destruct (48 <=? c) eqn:H1, (c <=? 57) eqn:H2; simpl in Hv; try discriminate.
    apply N.leb_le in H1, H2.
    apply orb_false_intro; apply andb_false_iff.
    + right. apply N.leb_gt. lia.
    + right. apply N.leb_gt. lia.
  - destruct (Py.currency c); [done|]. apply db_decimal_not_space.
Qed.

Lemma isdecimal_not_ascii_symbol c x :
  Py.isdecimal c = true → x < 48 → c ≠ x.
Proof.
  rewrite isdecimal_true. unfold Py.decimal_value, Py.classify, Py.between.
  intros [v Hv] Hx ->.
  assert ((x <? 128) = true) as Hhi by (apply N.ltb_lt; lia).
  assert ((48 <=? x) = false) as Hlo by (apply N.leb_gt; lia).
  rewrite Hhi, Hlo in Hv. discriminate.
Qed.

Lemma isspace_not_percent c : Py.isspace c = true → c ≠ 37.
Proof. intros Hs ->. discriminate. Qed.
End Chars.

(** ** The regular expressions against the direct scans *)
Section Scans.
Context `{Python}.
Import Re Spec FinancialDataParser.

Lemma leading_after p s : leading p s ++ after p s = s.
Proof. induction s as [|c r IH]; simpl; [done|]. destruct (p c); simpl; by rewrite ?IH. Qed.

Lemma after_stops p s c r : after p s = c :: r → p c = false.
Proof.
  induction s as [|x s IH]; simpl; [done|].
  destruct (p x) eqn:Hx; [done|]. by intros [= -> ->].
Qed.

Lemma after_after p s : after p (after p s) = after p s.
Proof.
  destruct (after p s) as [|c r] eqn:E; [done|].
  simpl. by rewrite (after_stops _ _ _ _ E).
Qed.

Lemma after_cons_false p c r : p c = false → after p (c :: r) = c :: r.
Proof. simpl. by intros ->. Qed.

Lemma optional_app c s : (optional c s).1 ++ (optional c s).2 = s.
Proof.
  destruct s as [|x r]; simpl; [done|].
  destruct (x =? c) eqn:E; simpl; [|done]. apply N.eqb_eq in E. by subst.
Qed.

Lemma optional_other c x r : x ≠ c → optional c (x :: r) = ([], x :: r).
Proof. intros Hx. simpl. apply N.eqb_neq in Hx. by rewrite Hx. Qed.

(** A greedy repetition settles on the longest run as soon as the
    continuation, when it fails after the longest run, fails inside it too. *)
Lemma star_greedy {R} p (k : str → option R) s :
  (∀ c s', p c = true → k (after p s') = None → k (c :: s') = None) →
  star p s k = k (after p s).
Proof.
  intros Hk. induction s as [|c r IH]; simpl; [done|].
  destruct (p c) eqn:Hc; [|done].
  rewrite IH. destruct (k (after p r)) eqn:E; [done|]. by apply Hk.
Qed.

(** An optional character is taken when it is there, under the same
    condition. *)
Lemma opt_chr_greedy {R} c (k : str → option str → option R) s g :
  (∀ r, k r g = None → k (c :: r) g = None) →
  exec (Opt (Chr (lit c))) s g k = k (optional c s).2 g.
Proof.
  intros Hk. destruct s as [|x r]; simpl; [done|].
  unfold lit. rewrite (N.eqb_sym c x).
  destruct (x =? c) eqn:E; simpl; [|done].
  apply N.eqb_eq in E. subst x.
  destruct (k r g) eqn:Er; [done|]. by apply Hk.
Qed.

Lemma stops_early_inside {R} (k : str → option R) c s' :
  stops_early k → Py.isdecimal c = true ∨ c = 46 →
  ∀ r, k r = None → k (c :: s') = None.
Proof.
  intros [Hs|Hf] Hc r Hr.
  - destruct (Hs r) as [x Hx]. congruence.
  - by apply Hf.
Qed.

Lemma exec_number_body {R} (k : str → option R) s g :
  stops_early k →
  exec number_body s g (λ s' _, k s') =
    match signed_decimal_at s with
    | Some (_, r) => k r
    | None => None
    end.
Proof.
  intros Hk.
  (* the fraction digits *)
  assert (Hfrac : ∀ s3, star d s3 k = k (after d s3)).
  { intros s3. apply star_greedy. intros c s' Hc Hn.
    eapply stops_early_inside; eauto. }
  (* the point *)
  set (k2 := λ (s2 : str) (g2 : option str), star d s2 k).
  assert (Hpoint : ∀ s2 g2,
    exec (Opt (Chr (lit 46))) s2 g2 k2 = k (after d (optional 46 s2).2)).
  { intros s2 g2. rewrite opt_chr_greedy; [apply Hfrac|].
    intros r. unfold k2. rewrite !Hfrac. intros Hr.
    rewrite after_cons_false by done.
    eapply stops_early_inside; eauto. }
  (* the integer digits *)
  set (k1 := λ (s1 : str) (g1 : option str), exec (Opt (Chr (lit 46))) s1 g1 k2).
  assert (Hint : ∀ s1 g1, star d s1 (λ s', k1 s' g1) = k1 (after d s1) g1).
  { intros s1 g1. apply star_greedy. intros c s' Hc. unfold k1.
    rewrite !Hpoint.
    rewrite (optional_other 46 c) by (by apply isdecimal_not_ascii_symbol); simpl snd.
    replace (after d (c :: s')) with (after d s') by (simpl; unfold d in *; by rewrite Hc).
    destruct (after d s') as [|x r] eqn:E; [done|].
    simpl optional. destruct (x =? 46) eqn:Ex; simpl snd.
    - apply N.eqb_eq in Ex. subst x. intros Hr.
      eapply stops_early_inside; eauto.
    - by rewrite <- E, after_after. }
  unfold number_body, signed_decimal_at.
  change (exec (Seq ?a ?b) s g ?k) with (exec a s g (λ s' g', exec b s' g' k)).
  rewrite opt_chr_greedy.
  - destruct (optional 45 s) as [minus s1] eqn:Es. simpl snd.
    change (exec (Seq (Plus d) ?b) s1 g ?k)
      with (exec (Chr d) s1 g (λ s' g', star d s' (λ s'', k1 s'' g'))).
    destruct s1 as [|c r]; simpl; [done|].
    unfold d at 1. destruct (Py.isdecimal c) eqn:Hc; simpl; [|done].
    rewrite Hint. unfold k1. rewrite Hpoint.
    unfold d. by destruct (optional 46 (after Py.isdecimal r)) as [point s2].
  - intros r _. simpl. unfold d, Py.isdecimal. done.
Qed.

Lemma signed_decimal_at_app s t r : signed_decimal_at s = Some (t, r) → t ++ r = s.
Proof.
  unfold signed_decimal_at.
  pose proof (optional_app 45 s) as H1.
  destruct (optional 45 s) as [minus s1]. simpl in H1.
  case_bool_decide; [done|].
  pose proof (optional_app 46 (after Py.isdecimal s1)) as H2.
  destruct (optional 46 (after Py.isdecimal s1)) as [point s2]. simpl in H2.
  intros [= <- <-]. rewrite <- !app_assoc, leading_after, H2, leading_after. done.
Qed.

Lemma take_captured (t r : str) : take (length (t ++ r) - length r) (t ++ r) = t.
Proof.
  rewrite length_app. replace (length t + length r - length r)%nat with (length t) by lia.
  by rewrite take_app_length.
Qed.

(** [number_re] reads the signed decimal at the head of the text. *)
Lemma exec_number_re {R} (k : str → option str → option R) s g :
  (∀ t, stops_early (λ s', k s' (Some t))) →
  (∀ s' t t', k s' t = None → k s' t' = None) →
  exec number_re s g k =
    match signed_decimal_at s with
    | Some (t, r) => k r (Some t)
    | None => None
    end.
Proof.
  intros Hk Hg. unfold number_re.
  change (exec (Grp ?a) s g k)
    with (exec a s g (λ s' _, k s' (Some (take (length s - length s') s)))).
  destruct (signed_decimal_at s) as [[t r]|] eqn:E.
  - pose proof (exec_number_body (λ s', k s' (Some (take (length s - length s') s))) s g)
      as Hb. fold number_body. rewrite Hb, E.
    + apply signed_decimal_at_app in E. subst s. by rewrite take_captured.
    + destruct (Hk []) as [Hs|Hf].
      * left. intros s'. destruct (Hs s') as [x Hx].
        destruct (k s' (Some (take (length s - length s') s))) eqn:E'; [done|].
        rewrite (Hg _ _ _ E') in Hx. done.
      * right. intros c s' Hc. eapply Hg, (Hf c s' Hc).
  - pose proof (exec_number_body (λ s', k s' (Some (take (length s - length s') s))) s g)
      as Hb. fold number_body. rewrite Hb, E; [done|].
    destruct (Hk []) as [Hs|Hf].
    + left. intros s'. destruct (Hs s') as [x Hx].
      destruct (k s' (Some (take (length s - length s') s))) eqn:E'; [done|].
      rewrite (Hg _ _ _ E') in Hx. done.
    + right. intros c s' Hc. eapply Hg, (Hf c s' Hc).
Qed.

(** [re.search(number_re, s)] finds the first signed decimal of [s]. *)
Lemma search_number_re s :
  group1 <$> search number_re s = Some <$> first_signed_decimal s.
Proof.
  induction s as [|c r IH].
  - cbn [search first_signed_decimal]. unfold match_here. rewrite exec_number_re.
    + by destruct (signed_decimal_at []) as [[t r]|].
    + intros t. left. intros s'. done.
    + done.
  - cbn [search first_signed_decimal]. unfold match_here. rewrite exec_number_re.
    + destruct (signed_decimal_at (c :: r)) as [[t r']|]; [done|]. apply IH.
    + intros t. left. intros s'. done.
    + done.
Qed.

(** After the number, [\s*%]. *)
Lemma percent_tail {R} (k : str → option str → option R) s g :
  exec (Seq (Star Re.s) (Chr (lit 37))) s g k =
    match after Py.isspace s with
    | c :: r => if c =? 37 then k r g else None
    | [] => None
    end.
Proof.
  change (exec (Seq ?a ?b) s g ?k) with (exec a s g (λ s' g', exec b s' g' k)).
  change (exec (Star ?p) s g ?k) with (star p s (λ s', k s' g)).
  rewrite star_greedy.
  - unfold Re.s. destruct (after Py.isspace s) as [|c r]; cbn [exec]; [done|].
    unfold lit. by rewrite (N.eqb_sym 37 c).
  - intros c s' Hc _. cbn [exec]. unfold lit.
    destruct (37 =? c) eqn:E; [|done]. apply N.eqb_eq in E. subst c. discriminate.
Qed.

Lemma match_percentage_re s :
  group1 <$> match_here percentage_re s = Some <$> percentage_at s.
Proof.
  unfold match_here, percentage_re, percentage_at.
  change (exec (Seq ?a ?b) s None ?k) with (exec a s None (λ s' g', exec b s' g' k)).
  rewrite exec_number_re.
  - destruct (signed_decimal_at s) as [[t r]|]; [|done].
    rewrite percent_tail. simpl.
    destruct (after Py.isspace r) as [|c r']; [done|]. by destruct (c =? 37).
  - intros t. right. intros c s' Hc. rewrite percent_tail.
    assert (Py.isspace c = false ∧ c ≠ 37) as [Hs Hp].
    { destruct Hc as [Hc| ->]; [|done]. split.
      - by apply isdecimal_not_space.
      - by apply isdecimal_not_ascii_symbol. }
    rewrite after_cons_false by done. apply N.eqb_neq in Hp. by rewrite Hp.
  - intros s' t t'. rewrite !percent_tail.
    destruct (after Py.isspace s') as [|c r']; [done|]. by destruct (c =? 37).
Qed.

(** [re.search(percentage_re, s)] finds the first signed decimal that a
    percent sign follows, white space allowed between the two. *)
Lemma search_percentage_re s :
  group1 <$> search percentage_re s = Some <$> first_percentage s.
Proof.
  induction s as [|c r IH].
  - cbn [search first_percentage].
    pose proof (match_percentage_re []) as Hm.
    destruct (match_here percentage_re []) as [m|], (percentage_at []); simpl in *; congruence.
  - cbn [search first_percentage].
    pose proof (match_percentage_re (c :: r)) as Hm.
    destruct (match_here percentage_re (c :: r)) as [m|], (percentage_at (c :: r));
      simpl in *; congruence.
Qed.
End Scans.

(** ** extract_amount *)
Section Amount.
Context `{Python}.
Import Re Spec FinancialDataParser.

Lemma leading_Forall p s : Forall (λ c, p c = true) (leading p s).
Proof.
  induction s as [|c r IH]; simpl; [constructor|].
  destruct (p c) eqn:E; by constructor.
Qed.

Lemma leading_of_after p s : leading p (after p s) = [].
Proof.
  destruct (after p s) as [|c r] eqn:E; [done|].
  simpl. by rewrite (after_stops _ _ _ _ E).
Qed.

Lemma digits_defined acc l :
  Forall (λ c, Py.isdecimal c = true) l → is_Some (Dec.digits acc l).
Proof.
  intros Hl. revert acc. induction Hl as [|c l Hc _ IH]; intros acc; simpl; [done|].
  apply isdecimal_true in Hc as [v ->]. apply IH.
Qed.

Lemma at_point_digits int more :
  Forall (λ c, Py.isdecimal c = true) int →
  Dec.at_point (int ++ more) = (int ++ (Dec.at_point more).1, (Dec.at_point more).2).
Proof.
  induction 1 as [|c l Hc _ IH]; simpl; [by destruct (Dec.at_point more)|].
  assert (c ≠ 46) as Hp by (by apply isdecimal_not_ascii_symbol).
  apply N.eqb_neq in Hp. rewrite Hp, IH. done.
Qed.

(** [Decimal] accepts every signed decimal the scan reads. *)
Lemma Decimal_of_signed_decimal s t r :
  signed_decimal_at s = Some (t, r) → is_Some (Dec.Decimal t).
Proof.
  unfold signed_decimal_at.
  destruct (optional 45 s) as [minus s1] eqn:Em.
  case_bool_decide as Hint; [done|].
  destruct (optional 46 (after Py.isdecimal s1)) as [point s2] eqn:Ep.
  intros [= <- <-].
  set (int := leading Py.isdecimal s1) in *.
  set (frac := leading Py.isdecimal s2).
  assert (Hi : Forall (λ c, Py.isdecimal c = true) int) by apply leading_Forall.
  assert (Hf : Forall (λ c, Py.isdecimal c = true) frac) by apply leading_Forall.
  (* the body, after the sign *)
  assert (Hbody : ∃ f, Dec.at_point (int ++ point ++ frac) = (int, f)
                       ∧ default [] f = frac).
  { rewrite at_point_digits by done.
    destruct (after Py.isdecimal s1) as [|x r'] eqn:Ea; simpl in Ep.
    - injection Ep as <- <-. simpl. exists None. by rewrite app_nil_r.
    - destruct (x =? 46) eqn:Ex; injection Ep as <- <-.
      + simpl. exists (Some frac). by rewrite app_nil_r.
      + subst frac. rewrite <- Ea, leading_of_after. simpl.
        exists None. by rewrite app_nil_r. }
  destruct Hbody as (f & Hat & Hdef).
  assert (Hd : is_Some (Dec.digits 0 (int ++ frac))).
  { apply digits_defined, Forall_app. done. }
  destruct Hd as [c Hc].
  assert (Hunsigned : ∀ neg, is_Some
    (let '(int', frac') := Dec.at_point (int ++ point ++ frac) in
     let frac' := default [] frac' in
     if bool_decide (int' = [] ∧ frac' = []) then None
     else c ← Dec.digits 0 (int' ++ frac');
          Some {| Dec.sign := neg; Dec.coeff := c;
                  Dec.exponent := - Z.of_nat (length frac') |})).
  { intros neg. rewrite Hat, Hdef. cbv zeta. case_bool_decide as Hb; [by destruct Hb|].
    rewrite Hc. simpl. done. }
  unfold Dec.Decimal.
  destruct s as [|x r']; simpl in Em.
  - injection Em as <- <-. by destruct Hint.
  - destruct (x =? 45) eqn:Ex; injection Em as <- <-.
    + simpl app. cbv beta iota. rewrite N.eqb_refl. apply Hunsigned.
    + destruct int as [|c0 int'] eqn:Ei; [done|].
      apply Forall_cons in Hi as [Hc0 _].
      simpl app.
      assert (c0 ≠ 45) as H45 by (by apply isdecimal_not_ascii_symbol).
      assert (c0 ≠ 43) as H43 by (by apply isdecimal_not_ascii_symbol).
      apply N.eqb_neq in H45, H43. cbv beta iota. rewrite H45, H43. apply Hunsigned.
Qed.

Lemma first_signed_decimal_Decimal s t :
  first_signed_decimal s = Some t → is_Some (Dec.Decimal t).
Proof.
  induction s as [|c r IH]; cbn [first_signed_decimal].
  - destruct (signed_decimal_at []) as [[t' r']|] eqn:E; [|done].
    intros [= <-]. eapply Decimal_of_signed_decimal, E.
  - destruct (signed_decimal_at (c :: r)) as [[t' r']|] eqn:E; [|done].
    intros [= <-]. eapply Decimal_of_signed_decimal, E.
Qed.

(** The loop over [multipliers] applies the factor of the first unit group
    present, and only that one. *)
Lemma apply_multiplier_unit_factor text amount :
  apply_multiplier multipliers text amount =
    match unit_factor text with
    | Some f => Dec.mul amount (Dec.of_N f)
    | None => Some amount
    end.
Proof.
  unfold multipliers, unit_factor. cbn [apply_multiplier].
  repeat (match goal with |- context [Py.contains ?a ?b] =>
            destruct (Py.contains a b); cbn [orb] end); done.
Qed.

Lemma extract_amount_scan text :
  extract_amount text =
    let t := Py.lower (Py.replace 44 [] text) in
    match first_signed_decimal t ≫= Dec.Decimal with
    | Some amount =>
        match (match unit_factor t with
               | Some f => Dec.mul amount (Dec.of_N f)
               | None => Some amount
               end) with
        | Some x => Returns (Some x)
        | None => Raises
        end
    | None => Returns None
    end.
Proof.
  unfold extract_amount. case_bool_decide as Ht.
  - subst text. done.
  - cbv zeta. set (t := Py.lower _).
    pose proof (search_number_re t) as Hs.
    destruct (search number_re t) as [m|] eqn:Em;
      destruct (first_signed_decimal t) as [lit|] eqn:Ef; simpl in Hs; try done.
    injection Hs as Hg. rewrite Hg.
    change (Some lit ≫= Dec.Decimal) with (Dec.Decimal lit).
    destruct (first_signed_decimal_Decimal _ _ Ef) as [amount Ha].
    rewrite Ha. by rewrite apply_multiplier_unit_factor.
Qed.
End Amount.

(** ** clean_text on text it has nothing to remove from *)
Section Clean.
Context `{Python}.
Import Spec FinancialDataParser.

Lemma push_tokens c ts :
  Py.isspace c = false → Forall token ts → Forall token (Py.push c ts).
Proof.
  intros Hc Hts. destruct Hts as [|t ts [Ht1 Ht2] Hts]; simpl.
  - apply Forall_singleton. split; [done|]. by apply Forall_singleton.
  - constructor; [|done]. split; [done|]. by constructor.
Qed.

Lemma split_tokens s : Forall token (Py.split s).
Proof.
  induction s as [|c r IH]; simpl; [constructor|].
  destruct (Py.isspace c) eqn:Hc; [done|].
  destruct (Py.starts_space r).
  - constructor; [|done]. split; [done|]. by apply Forall_singleton.
  - by apply push_tokens.
Qed.

Lemma split_Forall (P : N → Prop) s : Forall P s → Forall (Forall P) (Py.split s).
Proof.
  induction 1 as [|c r Hc _ IH]; simpl; [constructor|].
  destruct (Py.isspace c); [done|].
  destruct (Py.starts_space r).
  - constructor; [|done]. by apply Forall_singleton.
  - destruct IH as [|t ts Ht Hts]; simpl.
    + by apply Forall_singleton, Forall_singleton.
    + constructor; [|done]. by constructor.
Qed.

Lemma join_Forall (P : N → Prop) sep ts :
  Forall P sep → Forall (Forall P) ts → Forall P (Py.join sep ts).
Proof.
  intros Hsep. induction 1 as [|t ts Ht Hts IH]; simpl; [constructor|].
  destruct ts as [|t' ts']; [done|]. rewrite !Forall_app. done.
Qed.

Lemma split_token_app t more :
  token t → Py.starts_space more = true → Py.split (t ++ more) = t :: Py.split more.
Proof.
  intros [Hne Hns] Hmore. induction Hns as [|c t Hc Ht IH]; [done|].
  simpl. rewrite Hc. destruct t as [|c' t'].
  - simpl. by rewrite Hmore.
  - apply Forall_cons in Ht as Hc'. destruct Hc' as [Hc' _].
    assert (Py.starts_space ((c' :: t') ++ more) = false) as -> by done.
    rewrite IH by done. done.
Qed.

Lemma split_join ts : Forall token ts → Py.split (Py.join (u " ") ts) = ts.
Proof.
  induction 1 as [|t ts Ht Hts IH]; [done|].
  cbn [Py.join]. destruct ts as [|t' ts'].
  - rewrite <- (app_nil_r t) at 1. by rewrite split_token_app.
  - rewrite split_token_app by done. f_equal. exact IH.
Qed.

Lemma join_head ts c :
  Forall token ts → head (Py.join (u " ") ts) = Some c → Py.isspace c = false.
Proof.
  intros Hts. destruct Hts as [|t ts [Hne Hns] Hts]; [done|].
  assert (head (Py.join (u " ") (t :: ts)) = head t) as ->.
  { cbn [Py.join]. destruct ts; [done|]. by destruct t. }
  intros Hc%head_Some_elem_of. rewrite Forall_forall in Hns. by apply Hns.
Qed.

Lemma join_last ts c :
  Forall token ts → last (Py.join (u " ") ts) = Some c → Py.isspace c = false.
Proof.
  induction 1 as [|t ts [Hne Hns] Hts IH]; [done|].
  cbn [Py.join]. destruct ts as [|t' ts'].
  - intros Hc%last_Some_elem_of. rewrite Forall_forall in Hns. by apply Hns.
  - rewrite app_assoc, last_app.
    destruct (last (Py.join (u " ") (t' :: ts'))) as [x|] eqn:El.
    + intros [= ->]. by apply IH.
    + apply last_None in El. apply Forall_cons in Hts as [[Hne' _] _].
      exfalso. cbn [Py.join] in El. destruct ts'; [done|].
      by destruct t'.
Qed.

Lemma lstrip_head s :
  (∀ c, head s = Some c → Py.isspace c = false) → Py.lstrip s = s.
Proof. destruct s as [|c r]; simpl; [done|]. intros Hc. by rewrite Hc. Qed.

Lemma strip_join ts :
  Forall token ts → Py.strip (Py.join (u " ") ts) = Py.join (u " ") ts.
Proof.
  intros Hts. unfold Py.strip, Py.rstrip.
  rewrite (lstrip_head (Py.join _ ts)) by (intros c; by apply join_head).
  rewrite lstrip_head; [apply reverse_involutive|].
  intros c. rewrite head_reverse. by apply join_last.
Qed.

Lemma sub_outside_clean s : clean s → Re.sub_outside kept s = s.
Proof.
  unfold Re.sub_outside. induction 1 as [|c r Hc _ IH]; [done|].
  rewrite filter_cons_True by done. by rewrite IH.
Qed.

Lemma lstrip_Forall (P : N → Prop) s : Forall P s → Forall P (Py.lstrip s).
Proof.
  induction 1 as [|c r Hc Hr IH]; simpl; [constructor|].
  destruct (Py.isspace c); [done|]. by constructor.
Qed.

Lemma strip_Forall (P : N → Prop) s : Forall P s → Forall P (Py.strip s).
Proof.
  intros Hs. unfold Py.strip, Py.rstrip.
  by apply Forall_reverse, lstrip_Forall, Forall_reverse, lstrip_Forall.
Qed.

Lemma kept_space : kept 32 = true.
Proof. done. Qed.

(** On a text with nothing to remove, [clean_text] is the join of the
    tokens. *)
Lemma clean_text_of_clean s : clean s → clean_text s = Py.join (u " ") (Py.split s).
Proof.
  intros Hs. unfold clean_text. case_bool_decide as He; [by subst|].
  cbv zeta. rewrite sub_outside_clean.
  - apply strip_join, split_tokens.
  - apply join_Forall; [by apply Forall_singleton|]. by apply split_Forall.
Qed.

(** What [clean_text] returns has nothing left to remove. *)
Lemma clean_text_clean s : clean (clean_text s).
Proof.
  unfold clean_text. case_bool_decide; [constructor|].
  cbv zeta. apply strip_Forall. unfold Re.sub_outside.
  apply Forall_forall. by intros c [Hc _]%list_elem_of_filter.
Qed.

(** [clean_text] is idempotent on the texts it removes no character from. *)
Lemma clean_text_idempotent_on_clean s :
  clean s → clean_text (clean_text s) = clean_text s.
Proof.
  intros Hs. rewrite (clean_text_of_clean s Hs).
  rewrite clean_text_of_clean.
  - by rewrite split_join by apply split_tokens.
  - apply join_Forall; [by apply Forall_singleton|]. by apply split_Forall.
Qed.

(** Hence a second pass always reaches a text that a third leaves alone. *)
Lemma clean_text_stable_after_two s :
  clean_text (clean_text (clean_text s)) = clean_text (clean_text s).
Proof. apply clean_text_idempotent_on_clean, clean_text_clean. Qed.
End Clean.

(** ** The decimal context *)
Section Decimals.
Import Dec.

Lemma usize_nb_digits d : DecimalPos.Unsigned.usize d = N.of_nat (Decimal.nb_digits d).
Proof. induction d; simpl; rewrite ?IHd; lia. Qed.

Lemma of_lu_rev_cons d k :
  DecimalPos.Unsigned.of_lu (Decimal.revapp d k)
  = DecimalPos.Unsigned.of_lu (Decimal.rev d)
    + DecimalPos.Unsigned.of_lu k * 10 ^ DecimalPos.Unsigned.usize d.
Proof. apply DecimalPos.Unsigned.of_lu_revapp. Qed.

Lemma of_lu_rev_lt d :
  DecimalPos.Unsigned.of_lu (Decimal.rev d) < 10 ^ DecimalPos.Unsigned.usize d.
Proof.
  induction d; unfold Decimal.rev; cbn [Decimal.revapp DecimalPos.Unsigned.usize];
    [cbn; lia|..];
    rewrite of_lu_rev_cons, N.pow_succ_r'; cbn [DecimalPos.Unsigned.of_lu]; nia.
Qed.

(** A number is below the power of ten of its number of digits, and, when
    it is not zero, at least the power before. *)
Lemma ndigits_upper n : n < 10 ^ N.of_nat (ndigits n).
Proof.
  unfold ndigits. rewrite <- usize_nb_digits.
  rewrite <- (DecimalN.Unsigned.of_to n) at 1. unfold N.of_uint.
  rewrite DecimalPos.Unsigned.of_uint_alt. apply of_lu_rev_lt.
Qed.

Lemma ndigits_lower n : 0 < n → 10 ^ N.of_nat (ndigits n - 1) ≤ n.
Proof.
  intros Hn. unfold ndigits.
  pose proof (DecimalN.Unsigned.to_of (N.to_uint n)) as Hnorm.
  rewrite DecimalN.Unsigned.of_to in Hnorm.
  pose proof (DecimalN.Unsigned.of_to n) as Hof. unfold N.of_uint in Hof.
  rewrite DecimalPos.Unsigned.of_uint_alt in Hof.
  destruct (N.to_uint n) as [|d|d|d|d|d|d|d|d|d|d] eqn:E;
    try (rewrite <- Hof; unfold Decimal.rev; cbn [Decimal.revapp Decimal.nb_digits];
         rewrite of_lu_rev_cons, Nat.sub_1_r; cbn [Nat.pred DecimalPos.Unsigned.of_lu];
         rewrite <- usize_nb_digits; nia).
  - cbn in Hof. lia.
  - unfold Decimal.unorm in Hnorm. cbn [Decimal.nzhead] in Hnorm.
    pose proof (DecimalFacts.nb_digits_nzhead d) as Hle.
    destruct (Decimal.nzhead d) eqn:Ez.
    + injection Hnorm as ->. cbn in Hof. lia.
    + rewrite <- Hnorm in Hle. cbn in Hle. lia.
    + rewrite <- Hnorm in Hle. cbn in Hle. lia.
    + rewrite <- Hnorm in Hle. cbn in Hle. lia.
    + rewrite <- Hnorm in Hle. cbn in Hle. lia.
    + rewrite <- Hnorm in Hle. cbn in Hle. lia.
    + rewrite <- Hnorm in Hle. cbn in Hle. lia.
    + rewrite <- Hnorm in Hle. cbn in Hle. lia.
    + rewrite <- Hnorm in Hle. cbn in Hle. lia.
    + rewrite <- Hnorm in Hle. cbn in Hle. lia.
    + rewrite <- Hnorm in Hle. cbn in Hle. lia.
Qed.

Lemma ndigits_pos n : (0 < ndigits n)%nat.
Proof.
  pose proof (ndigits_upper n) as Hu.
  destruct (ndigits n) eqn:E; [|lia]. cbn in Hu.
  assert (n = 0) as -> by lia. cbn in E. discriminate.
Qed.


Lemma ndigits_gt n k : 10 ^ N.of_nat k ≤ n → (k < ndigits n)%nat.
Proof.
  intros Hle. pose proof (ndigits_upper n) as Hu.
  assert (10 ^ N.of_nat k < 10 ^ N.of_nat (ndigits n)) as Hp by lia.
  apply N.pow_lt_mono_r_iff in Hp; lia.
Qed.



Lemma limits :
  (Etiny < 0 ∧ 0 ≤ Etop ∧ Etop = Emax - 27 ∧ Etiny < Etop ∧ 0 ≤ Emax)%Z.
Proof. unfold Etiny, Etop, Emin, Emax, prec. lia. Qed.



(** The context raises [Overflow] only for a result of more than [Emax]
    digits before the point, and always beyond [Emax + 1] of them. *)
Lemma fix_in_range x :
  (Z.of_nat (ndigits (coeff x)) + exponent x ≤ Emax)%Z → is_Some (_fix x).
Proof.
  intros Hr. pose proof limits as HL. unfold _fix.
  destruct (coeff x =? 0); [done|]. cbv zeta.
  set (nd := ndigits (coeff x)) in *.
  destruct (Z.ltb_spec Etop (Z.of_nat nd + exponent x - Z.of_nat prec)) as [Hov|_].
  { unfold prec in Hov. lia. }
  set (exp_min := Z.max _ Etiny).
  destruct (Z.ltb_spec (exponent x) exp_min); [|done].
  assert (exp_min + 1 ≤ Etop)%Z by (unfold exp_min, prec; lia).
  destruct (prec <? ndigits _)%nat.
  - destruct (Z.ltb_spec Etop (exp_min + 1)); [lia|done].
  - destruct (Z.ltb_spec Etop exp_min); [lia|done].
Qed.

Lemma fix_overflow x :
  coeff x ≠ 0 → (Emax + 1 < Z.of_nat (ndigits (coeff x)) + exponent x)%Z →
  _fix x = None.
Proof.
  intros Hc Hr. pose proof limits as HL. unfold _fix.
  destruct (N.eqb_spec (coeff x) 0); [done|]. cbv zeta.
  destruct (Z.ltb_spec Etop (Z.of_nat (ndigits (coeff x)) + exponent x - Z.of_nat prec));
    [done|]. unfold prec in *. lia.
Qed.

(** In terms of the magnitude of the exact result, for an exponent that is
    not positive *)
Lemma fix_none_large x :
  (exponent x ≤ 0)%Z → _fix x = None →
  10 ^ Z.to_N (Emax - exponent x) ≤ coeff x.
Proof.
  intros He Hn. pose proof limits as HL.
  destruct (Z.le_gt_cases (Z.of_nat (ndigits (coeff x)) + exponent x) Emax) as [Hin|Hout].
  { apply fix_in_range in Hin as [y Hy]. congruence. }
  assert (coeff x ≠ 0) as Hc.
  { intros Hz. unfold _fix in Hn. rewrite Hz in Hn. done. }
  etrans; [|apply ndigits_lower; lia].
  apply N.pow_le_mono_r; lia.
Qed.

End Decimals.

(** ** The quantity parser: the claims *)
Section ParserClaims.
Context `{Python}.
Import Re Spec FinancialDataParser.


(** The product by a unit's factor is the context's rounding of the exact
    product. *)
Lemma mul_of_N amount f :
  Dec.mul amount (Dec.of_N f)
  = Dec._fix {| Dec.sign := Dec.sign amount; Dec.coeff := Dec.coeff amount * f;
                Dec.exponent := Dec.exponent amount |}.
Proof.
  unfold Dec.mul. cbn [Dec.coeff Dec.of_N Dec.sign Dec.exponent].
  by rewrite xorb_false_r, Z.add_0_r.
Qed.

(** A literal has no positive exponent. *)
Lemma Decimal_exponent t amount :
  Dec.Decimal t = Some amount → (Dec.exponent amount ≤ 0)%Z.
Proof.
  unfold Dec.Decimal.
  destruct (match t with
            | [] => (false, t)
            | c :: r => if c =? 45 then (true, r)
                        else if c =? 43 then (false, r) else (false, t)
            end) as [neg body].
  destruct (Dec.at_point body) as [int frac]. case_bool_decide; [done|].
  destruct (Dec.digits 0 (int ++ default [] frac)) as [c|]; [|done].
  intros [= <-]. cbn [Dec.exponent]. lia.
Qed.

(** *** A number too large for the context: nines, then a unit *)

Lemma lower_from_nines before n s :
  Py.lower_from before (repeat 57 n ++ s)
  = repeat 57 n ++ Py.lower_from (before ++ repeat 57 n) s.
Proof.
  revert before. induction n as [|n IH]; intros before; cbn [repeat app].
  - by rewrite app_nil_r.
  - change (Py.lower_from before (57 :: repeat 57 n ++ s))
      with (57 :: Py.lower_from (before ++ [57]) (repeat 57 n ++ s)).
    by rewrite IH, <- app_assoc.
Qed.

Lemma replace_nines n s :
  Py.replace 44 [] (repeat 57 n ++ s) = repeat 57 n ++ Py.replace 44 [] s.
Proof.
  unfold Py.replace. rewrite flat_map_app. f_equal.
  induction n as [|n IH]; [done|]. cbn [repeat flat_map]. by rewrite IH.
Qed.

Lemma lowered_nines n :
  Py.lower (Py.replace 44 [] (repeat 57 n ++ u " cr")) = repeat 57 n ++ u " cr".
Proof. unfold Py.lower. by rewrite replace_nines, lower_from_nines. Qed.

Lemma leading_nines n :
  leading Py.isdecimal (repeat 57 n ++ u " cr") = repeat 57 n
  ∧ after Py.isdecimal (repeat 57 n ++ u " cr") = u " cr".
Proof.
  induction n as [|n [IH1 IH2]]; [done|]. cbn [repeat app].
  change (leading Py.isdecimal (57 :: ?r)) with (57 :: leading Py.isdecimal r).
  change (after Py.isdecimal (57 :: ?r)) with (after Py.isdecimal r).
  by rewrite IH1, IH2.
Qed.

Lemma first_signed_decimal_nines n :
  first_signed_decimal (repeat 57 (S n) ++ u " cr") = Some (repeat 57 (S n)).
Proof.
  destruct (leading_nines (S n)) as [Hl Ha].
  assert (signed_decimal_at (repeat 57 (S n) ++ u " cr")
          = Some (repeat 57 (S n), u " cr")) as Hs.
  { unfold signed_decimal_at.
    change (optional 45 (repeat 57 (S n) ++ u " cr"))
      with (@nil N, repeat 57 (S n) ++ u " cr").
    cbv iota beta zeta. rewrite Hl, Ha.
    rewrite bool_decide_eq_false_2 by done.
    change (optional 46 (u " cr")) with (@nil N, u " cr").
    cbv iota beta. change (leading Py.isdecimal (u " cr")) with (@nil N).
    change (after Py.isdecimal (u " cr")) with (u " cr").
    by rewrite !app_nil_r. }
  cbn [repeat app] in *. cbn [first_signed_decimal]. by rewrite Hs.
Qed.

Lemma digits_nines acc n :
  Dec.digits acc (repeat 57 n) = Some (acc * 10 ^ N.of_nat n + (10 ^ N.of_nat n - 1)).
Proof.
  revert acc. induction n as [|n IH]; intros acc.
  - cbn. f_equal. lia.
  - cbn [repeat].
    change (Dec.digits acc (57 :: repeat 57 n))
      with (Dec.digits (10 * acc + 9) (repeat 57 n)).
    rewrite IH, Nat2N.inj_succ, N.pow_succ_r'. f_equal.
    assert (0 < 10 ^ N.of_nat n) by (apply N.neq_0_lt_0, N.pow_nonzero; lia).
    nia.
Qed.

Lemma at_point_nines n : Dec.at_point (repeat 57 n) = (repeat 57 n, None).
Proof.
  induction n as [|n IH]; [done|]. cbn [repeat].
  change (Dec.at_point (57 :: repeat 57 n))
    with (let '(i, f) := Dec.at_point (repeat 57 n) in (57 :: i, f)).
  by rewrite IH.
Qed.

Lemma Decimal_nines n :
  Dec.Decimal (repeat 57 (S n))
  = Some {| Dec.sign := false; Dec.coeff := 10 ^ N.of_nat (S n) - 1; Dec.exponent := 0 |}.
Proof.
  unfold Dec.Decimal.
  change (match repeat 57 (S n) with
          | [] => (false, repeat 57 (S n))
          | c :: r => if c =? 45 then (true, r)
                      else if c =? 43 then (false, r) else (false, repeat 57 (S n))
          end) with (false, repeat 57 (S n)).
  cbv iota beta. rewrite at_point_nines. cbv iota beta. cbn [default].
  rewrite bool_decide_eq_false_2 by (intros [? _]; done).
  rewrite app_nil_r, digits_nines. cbn [mbind option_bind length].
  do 3 f_equal; lia.
Qed.

Lemma contains_app_r p a b : Py.contains p b = true → Py.contains p (a ++ b) = true.
Proof.
  intros Hb. induction a as [|x a IH]; [done|].
  cbn [app Py.contains]. rewrite IH. apply orb_true_r.
Qed.

Lemma extract_amount_nines n :
  999994 ≤ N.of_nat n → extract_amount (repeat 57 n ++ u " cr") = Raises.
Proof.
  intros Hn. destruct n as [|n]; [cbn in Hn; lia|].
  rewrite extract_amount_scan. cbv zeta. rewrite lowered_nines.
  rewrite first_signed_decimal_nines. cbn [mbind option_bind].
  rewrite Decimal_nines.
  assert (unit_factor (repeat 57 (S n) ++ u " cr") = Some 10000000) as ->.
  { unfold unit_factor. by rewrite (contains_app_r (u "cr")). }
  rewrite mul_of_N. cbn [Dec.sign Dec.coeff Dec.exponent].
  rewrite fix_overflow; [done| |].
  - cbn [Dec.coeff].
    assert (0 < 10 ^ N.of_nat (S n)) by (apply N.neq_0_lt_0, N.pow_nonzero; lia).
    assert (10 ^ 1 ≤ 10 ^ N.of_nat (S n)) by (apply N.pow_le_mono_r; lia).
    change (10 ^ 1) with 10 in *. lia.
  - cbn [Dec.coeff Dec.exponent].
    assert (S n + 6 < Dec.ndigits ((10 ^ N.of_nat (S n) - 1) * 10000000))%nat as Hd.
    { apply ndigits_gt. rewrite Nat2N.inj_add, N.pow_add_r.
      assert (10 ^ 1 ≤ 10 ^ N.of_nat (S n)) by (apply N.pow_le_mono_r; lia).
      change (10 ^ 1) with 10 in *. change (10 ^ N.of_nat 6) with 1000000.
      set (P := 10 ^ N.of_nat (S n)) in *. clearbody P. lia. }
    unfold Dec.Emax. lia.
Qed.

(** *** A number too small for the context: zeros after the point, then a
    one and a unit *)







Lemma at_point_zeros n :
  Dec.at_point (repeat 48 n ++ u "1") = (repeat 48 n ++ u "1", None).
Proof.
  induction n as [|n IH]; [done|]. cbn [repeat app].
  change (Dec.at_point (48 :: repeat 48 n ++ u "1"))
    with (let '(i, f) := Dec.at_point (repeat 48 n ++ u "1") in (48 :: i, f)).
  by rewrite IH.
Qed.



(** *** A zero too fine for the context: zeros after the point, then a
    unit *)




Lemma at_point_zero n : Dec.at_point (repeat 48 n) = (repeat 48 n, None).
Proof.
  induction n as [|n IH]; [done|]. cbn [repeat].
  change (Dec.at_point (48 :: repeat 48 n))
    with (let '(i, f) := Dec.at_point (repeat 48 n) in (48 :: i, f)).
  by rewrite IH.
Qed.




Lemma extract_percentage_scan text :
  extract_percentage text = Returns (float <$> first_percentage text).
Proof.
  unfold extract_percentage. case_bool_decide as Ht.
  - subst text. done.
  - pose proof (search_percentage_re text) as Hs.
    destruct (search percentage_re text) as [m|], (first_percentage text) as [t|];
      simpl in Hs; try done.
    injection Hs as ->. done.
Qed.

(** C5, as the code has it.  For every text, [extract_percentage] returns,
    as a float, the first signed decimal that a percent sign follows, white
    space allowed between the two, and nothing when there is none:
    "grew by -3.4%" gives -3.4, "flat" gives nothing, and "12 %" gives 12. *)
Theorem extract_percentage_first_percentage :
  (∀ text, extract_percentage text = Returns (float <$> first_percentage text))
  ∧ extract_percentage (u "grew by -3.4%") = Returns (Some (float (u "-3.4")))
  ∧ extract_percentage (u "flat") = Returns None
  ∧ extract_percentage (u "12 %") = Returns (Some (float (u "12"))).
Proof.
  split; [apply extract_percentage_scan|].
  repeat split; vm_compute; reflexivity.
Qed.

(** C6, as the code has it.  [clean_text] of "  Revenue   up!! 12%  " is
    "Revenue up 12%": the exclamation marks are removed, the percent sign
    stays, the white space is collapsed. *)
Theorem clean_text_revenue :
  clean_text (u "  Revenue   up!! 12%  ") = u "Revenue up 12%".
Proof. vm_compute. reflexivity. Qed.

(** C7, the failing input.  Cleaning "a ! b" leaves two spaces where the
    exclamation mark stood; cleaning the result again collapses them. *)
Theorem clean_text_twice_differs :
  clean_text (u "a ! b") = u "a  b"
  ∧ clean_text (clean_text (u "a ! b")) = u "a b"
  ∧ clean_text (clean_text (u "a ! b")) ≠ clean_text (u "a ! b").
Proof. repeat split; vm_compute; [reflexivity..|discriminate]. Qed.

(** C9. The unit keywords are looked for as substrings of the lower-cased
    text: "5 across" and "3 crypto tokens" hold "cr" inside another word and
    no "crore", and the number is multiplied by 10,000,000 all the same. *)
Theorem extract_amount_cr_inside_a_word :
  Py.contains (u "crore") (u "5 across") = false
  ∧ extract_amount (u "5 across") = Returns (Some (Dec.of_N 50000000))
  ∧ Py.contains (u "crore") (u "3 crypto tokens") = false
  ∧ extract_amount (u "3 crypto tokens") = Returns (Some (Dec.of_N 30000000))
  ∧ extract_amount (u "5 apples") = Returns (Some (Dec.of_N 5)).
Proof. repeat split; vm_compute; reflexivity. Qed.
End ParserClaims.


(** C5, as the specification states it, fails: a decimal separated from the
    percent sign by a space is a match. *)
Lemma extract_percentage_space_before_percent :
  ¬ (∀ P : Python, @FinancialDataParser.extract_percentage P (u "12 %") = Returns None).
Proof. intros Hall. specialize (Hall plain). vm_compute in Hall. discriminate. Qed.

(** C6, as the specification states it, fails: the result keeps the percent
    sign. *)
Lemma clean_text_revenue_keeps_percent :
  ¬ (∀ P : Python,
       @FinancialDataParser.clean_text P (u "  Revenue   up!! 12%  ") = u "Revenue up 12").
Proof. intros Hall. specialize (Hall plain). vm_compute in Hall. discriminate. Qed.

(** ** The fetch controller *)
Section Fetch.
Context `{Python}.
Import StockDataAgent Run.
Variable w : world.

Lemma safe_goto_loaded url retries st content :
  goto w (navigations st) url = Loaded content →
  safe_goto w url retries st = (true, emit (Sleep 2) (set_page content (navigate url st))).
Proof. intros Hg. simp safe_goto. rewrite Hg. simpl. done. Qed.

Lemma safe_goto_failed url retries st :
  goto w (navigations st) url = Failed →
  safe_goto w url retries st = (false, emit (Log ERROR url) (navigate url st)).
Proof. intros Hg. simp safe_goto. rewrite Hg. simpl. done. Qed.

Lemma safe_goto_retry url retries st :
  goto w (navigations st) url = TimedOut →
  (retries < max_retries st)%nat →
  safe_goto w url retries st =
    safe_goto w url (S retries)
      (emit (Sleep (2 * (N.of_nat retries + 1)))
         (emit (Log WARNING url) (navigate url st))).
Proof.
  intros Hg Hr. rewrite (safe_goto_unfold_eq w url retries st).
  unfold safe_goto_unfold. rewrite Hg. simpl.
  destruct (decide (retries < max_retries st)%nat); [|lia]. simpl.
  by rewrite safe_goto_unfold_eq.
Qed.

Lemma safe_goto_exhausted url retries st :
  goto w (navigations st) url = TimedOut →
  ¬ (retries < max_retries st)%nat →
  safe_goto w url retries st = (false, emit (Log ERROR url) (navigate url st)).
Proof.
  intros Hg Hr. simp safe_goto. rewrite Hg. simpl.
  destruct (decide (retries < max_retries st)%nat); [lia|]. simpl. done.
Qed.

Lemma same_agent_refl st : same_agent st st.
Proof. by repeat split. Qed.

Lemma same_agent_trans st1 st2 st3 :
  same_agent st1 st2 → same_agent st2 st3 → same_agent st1 st3.
Proof. unfold same_agent. intros (?&?&?&?&?) (?&?&?&?&?). repeat split; congruence. Qed.

Lemma safe_goto_same_agent url retries st :
  same_agent st (safe_goto w url retries st).2.
Proof.
  remember (max_retries st - retries)%nat as n eqn:Hn.
  revert retries st Hn. induction n as [|n IH]; intros retries st Hn.
  - destruct (goto w (navigations st) url) as [content| |] eqn:Hg.
    + rewrite (safe_goto_loaded _ _ _ _ Hg). by repeat split.
    + rewrite safe_goto_exhausted by (done || lia). by repeat split.
    + rewrite safe_goto_failed by done. by repeat split.
  - destruct (goto w (navigations st) url) as [content| |] eqn:Hg.
    + rewrite (safe_goto_loaded _ _ _ _ Hg). by repeat split.
    + rewrite safe_goto_retry by (done || lia).
      eapply same_agent_trans; [|apply IH; simpl; lia]. by repeat split.
    + rewrite safe_goto_failed by done. by repeat split.
Qed.

(** When every attempt times out, the fetch makes one attempt and one more
    for each retry left, pauses [2 * attempt] between them, and fails. *)
Lemma safe_goto_timeouts url retries st :
  (∀ n, goto w n url = TimedOut) →
  (retries ≤ max_retries st)%nat →
  let '(ok, st') := safe_goto w url retries st in
  ok = false
  ∧ trace st' = trace st
                ++ timeouts url (timeout st) retries (max_retries st - retries)
  ∧ navigations st' = (navigations st + S (max_retries st - retries))%nat.
Proof.
  intros Hw.
  remember (max_retries st - retries)%nat as n eqn:Hn.
  revert retries st Hn. induction n as [|n IH]; intros retries st Hn Hle.
  - rewrite safe_goto_exhausted by (done || lia). simpl.
    repeat split; [by rewrite <- app_assoc|lia].
  - rewrite safe_goto_retry by (done || lia).
    specialize (IH (S retries)
      (emit (Sleep (2 * (N.of_nat retries + 1)))
         (emit (Log WARNING url) (navigate url st)))).
    destruct (safe_goto w url (S retries) _) as [ok st'].
    destruct IH as (Hok & Ht & Hnav); [simpl; lia..|].
    split; [done|]. split.
    + rewrite Ht. simpl. by rewrite <- !app_assoc.
    + rewrite Hnav. simpl. lia.
Qed.

(** C3. With [max_retries = 3] and a renderer that times out on every
    navigation, [safe_goto] navigates exactly four times (the first attempt
    and three retries), sleeps 2, 4 and 6 between the attempts, and then
    returns [False]. *)
Theorem safe_goto_three_retries url st :
  max_retries st = 3%nat →
  (∀ n, goto w n url = TimedOut) →
  let '(ok, st') := safe_goto w url 0 st in
  ok = false
  ∧ trace st' = trace st ++
      [ Navigate url (timeout st); Log WARNING url; Sleep 2;
        Navigate url (timeout st); Log WARNING url; Sleep 4;
        Navigate url (timeout st); Log WARNING url; Sleep 6;
        Navigate url (timeout st); Log ERROR url ]
  ∧ navigations st' = (navigations st + 4)%nat.
Proof.
  intros Hmax Hw.
  pose proof (safe_goto_timeouts url 0 st Hw) as Ht.
  destruct (safe_goto w url 0 st) as [ok st'].
  rewrite Hmax in Ht. destruct Ht as (Hok & Ht & Hnav); [lia|].
  split; [done|]. split; [|done]. rewrite Ht. done.
Qed.
End Fetch.

(** C3 on the renderer that always times out, from the initial agent. *)
Lemma safe_goto_three_retries_witness :
  let '(ok, st') :=
    StockDataAgent.safe_goto Run.unreachable (u "https://example.com")
      0 StockDataAgent.init in
  ok = false
  ∧ StockDataAgent.trace st' = StockDataAgent.trace StockDataAgent.init ++
      [ StockDataAgent.Navigate (u "https://example.com") 15000;
        StockDataAgent.Log StockDataAgent.WARNING (u "https://example.com");
        StockDataAgent.Sleep 2;
        StockDataAgent.Navigate (u "https://example.com") 15000;
        StockDataAgent.Log StockDataAgent.WARNING (u "https://example.com");
        StockDataAgent.Sleep 4;
        StockDataAgent.Navigate (u "https://example.com") 15000;
        StockDataAgent.Log StockDataAgent.WARNING (u "https://example.com");
        StockDataAgent.Sleep 6;
        StockDataAgent.Navigate (u "https://example.com") 15000;
        StockDataAgent.Log StockDataAgent.ERROR (u "https://example.com") ]
  ∧ StockDataAgent.navigations st' = (StockDataAgent.navigations StockDataAgent.init + 4)%nat.
Proof.
  apply (safe_goto_three_retries Run.unreachable (u "https://example.com")
           StockDataAgent.init).
  - reflexivity.
  - intros n. reflexivity.
Defined.

(** ** The visited set and the aggregate *)
Section Visited.
Context `{Python}.
Import StockDataAgent Run.
Variable w : world.

Lemma extract_visited url k st :
  url ∈ collected_urls st → extract_data_from_url w url k st = (None, st).
Proof. intros Hu. unfold extract_data_from_url. by rewrite bool_decide_eq_true_2. Qed.

(** What one extraction does to the agent *)
Lemma extract_cases url k st :
  match extract_data_from_url w url k st with
  | (Some d, st') =>
      (url ∉ collected_urls st) ∧ StockDataAgent.url d = url ∧ text_data d ≠ []
      ∧ collected_urls st' = {[ url ]} ∪ collected_urls st
      ∧ data_points st' = data_points st
  | (None, st') =>
      collected_urls st' = collected_urls st ∧ data_points st' = data_points st
  end.
Proof.
  unfold extract_data_from_url. case_bool_decide as Hu; [done|].
  pose proof (safe_goto_same_agent w url 0 st) as (_ & Hd & Hc & _).
  destruct (safe_goto w url 0 st) as [ok st1]. simpl in Hd, Hc.
  destruct ok; simpl; [|done].
  destruct (page st1) as [soup|]; [|done].
  case_bool_decide as Ht; [|done]. simpl. by rewrite Hc.
Qed.

Lemma records_append url k e st :
  records url (append k e st)
  = (records url st + if bool_decide (entry_url e = url) then 1 else 0)%nat.
Proof.
  unfold records, keys.
  destruct k; cbn [map sum_list sum_list_with data_points append id];
    repeat (destruct (decide (_ = _)) as [?|?]; try discriminate; try done);
    rewrite List.filter_app, length_app; cbn [List.filter];
    case_bool_decide; simpl; lia.
Qed.

Lemma records_same url st st' :
  data_points st' = data_points st → records url st' = records url st.
Proof. unfold records. by intros ->. Qed.

Lemma append_elem k k' e e' st :
  e' ∈ data_points (append k e st) k' → e' ∈ data_points st k' ∨ e' = e.
Proof.
  simpl. destruct (decide (k' = k)); [|by left].
  rewrite elem_of_app, list_elem_of_singleton. done.
Qed.

(** One data type tested on one URL keeps the visited set and the aggregate
    in agreement. *)
Lemma test_consistent company_name site_name url k st :
  consistent st → consistent (test_data_type w company_name site_name url st k).
Proof.
  intros [Hrec Hne]. unfold test_data_type.
  pose proof (extract_cases url k st) as Hx.
  destruct (extract_data_from_url w url k st) as [[d|] st1].
  - destruct Hx as (Hnew & Hurl & Htext & Hc & Hd). split.
    + intros url'. rewrite records_append. cbn [entry_url collected_urls append].
      rewrite (records_same url' st st1 Hd), Hrec, Hurl, Hc.
      destruct (decide (url' = url)) as [->|Hneq].
      * rewrite (bool_decide_eq_false_2 _ Hnew).
        rewrite (bool_decide_eq_true_2 (url = url)) by done.
        rewrite bool_decide_eq_true_2 by (by apply elem_of_union_l, elem_of_singleton).
        done.
      * rewrite (bool_decide_eq_false_2 (url = url')) by done.
        rewrite Nat.add_0_r.
        rewrite (bool_decide_ext (url' ∈ {[url]} ∪ collected_urls st)
                   (url' ∈ collected_urls st))
          by (rewrite elem_of_union, elem_of_singleton; split;
              [intros [?|?]; [congruence|done]|by right]).
        done.
    + intros k' e' [He| ->]%append_elem; [|done].
      rewrite Hd in He. by eapply Hne.
  - destruct Hx as (Hc & Hd). split.
    + intros url'. by rewrite (records_same url' st st1 Hd), Hrec, Hc.
    + intros k' e'. rewrite Hd. apply Hne.
Qed.

Lemma same_agent_consistent st st' : same_agent st st' → consistent st → consistent st'.
Proof.
  intros (_ & Hd & Hc & _) [Hrec Hne]. split.
  - intros url. by rewrite (records_same url st st' Hd), Hrec, Hc.
  - intros k e. rewrite Hd. apply Hne.
Qed.

Lemma step_consistent st st' : step w st st' → consistent st → consistent st'.
Proof.
  destruct 1.
  - apply same_agent_consistent. by repeat split.
  - apply same_agent_consistent, safe_goto_same_agent.
  - apply test_consistent.
Qed.

Lemma steps_consistent st st' : rtc (step w) st st' → consistent st → consistent st'.
Proof. induction 1; eauto using step_consistent. Qed.

(** The visited set only grows. *)
Lemma step_collected st st' : step w st st' → collected_urls st ⊆ collected_urls st'.
Proof.
  destruct 1 as [e st|link retries st|company_name site_name link k st].
  - done.
  - by destruct (safe_goto_same_agent w link retries st) as (_ & _ & -> & _).
  - unfold test_data_type. pose proof (extract_cases link k st) as Hx.
    destruct (extract_data_from_url w link k st) as [[d|] st1].
    + destruct Hx as (_ & _ & _ & Hc & _). simpl. rewrite Hc.
      apply union_subseteq_r.
    + destruct Hx as [Hc _]. by rewrite Hc.
Qed.

Lemma steps_collected st st' : rtc (step w) st st' → collected_urls st ⊆ collected_urls st'.
Proof.
  induction 1 as [|? ? ? Hs _ IH]; [done|].
  apply step_collected in Hs. by etrans.
Qed.

(** The target sites never change. *)
Lemma steps_target_sites st st' : rtc (step w) st st' → target_sites st' = target_sites st.
Proof.
  induction 1 as [|st1 st2 st3 Hs _ IH]; [done|]. rewrite IH.
  destruct Hs as [e st|link retries st|company_name site_name link k st].
  - done.
  - by destruct (safe_goto_same_agent w link retries st) as (-> & _).
  - unfold test_data_type. unfold extract_data_from_url.
    case_bool_decide; [done|].
    destruct (safe_goto_same_agent w link 0 st) as (Ht & _).
    destruct (safe_goto w link 0 st) as [ok st1']. simpl in Ht.
    destruct ok; simpl; [|done].
    destruct (page st1'); [|done]. by case_bool_decide.
Qed.

(** Every loop of the agent is a sequence of steps. *)
Lemma foldl_steps {A} (f : state → A → state) l st :
  (∀ st x, rtc (step w) st (f st x)) → rtc (step w) st (foldl f st l).
Proof.
  intros Hf. revert st. induction l as [|x l IH]; intros st; simpl; [done|].
  etrans; [apply Hf|apply IH].
Qed.

Lemma process_url_steps company_name site_name st url :
  rtc (step w) st (process_url w company_name site_name st url).
Proof.
  unfold process_url. eapply rtc_r; [|apply step_emit].
  apply foldl_steps. intros st' k. apply rtc_once, step_test.
Qed.

Lemma scrape_site_steps company_name st site :
  rtc (step w) st (scrape_site w company_name st site).
Proof.
  unfold scrape_site. destruct site as [site_name base_url].
  destruct (search_url _ _ _) as [search|]; [|apply rtc_once, step_emit].
  pose proof (step_fetch w search 0 st) as Hf.
  destruct (safe_goto w search 0 st) as [ok st1]. simpl in Hf.
  destruct ok; simpl; [|by apply rtc_once].
  eapply rtc_l; [exact Hf|].
  eapply rtc_l; [apply (step_emit w (SleepRandom 1))|].
  change (page (emit (SleepRandom 1) st1)) with (page st1).
  destruct (page st1) as [soup|]; [|apply rtc_once, step_emit].
  destruct (relevant_urls _ _ _) as [relevant|]; [|apply rtc_once, step_emit].
  apply foldl_steps. intros. apply process_url_steps.
Qed.

Lemma scrape_company_steps company_name st :
  rtc (step w) st (scrape_company w company_name st).
Proof. apply foldl_steps. intros. apply scrape_site_steps. Qed.

Lemma run_steps companies st : rtc (step w) st (run w companies st).
Proof.
  apply foldl_steps. intros st' company.
  eapply rtc_l; [apply (step_emit w (Log INFO company))|].
  eapply rtc_r; [apply scrape_company_steps|apply step_emit].
Qed.

(** A URL that counts a record has one in the aggregate. *)
Lemma records_positive url st :
  (0 < records url st)%nat → ∃ k e, e ∈ data_points st k ∧ entry_url e = url.
Proof.
  unfold records. intros Hpos.
  assert (Hk : ∃ k, List.filter (λ e, bool_decide (entry_url e = url)) (data_points st k) ≠ []).
  { revert Hpos. generalize keys. intros ks. induction ks as [|k ks IH]; simpl; [lia|].
    destruct (List.filter _ (data_points st k)) eqn:E; simpl.
    - intros Hp. apply IH. lia.
    - intros _. exists k. by rewrite E. }
  destruct Hk as [k Hk].
  destruct (List.filter _ (data_points st k)) as [|e l] eqn:E; [done|].
  assert (In e (List.filter (λ e, bool_decide (entry_url e = url)) (data_points st k)))
    as [Hin He]%List.filter_In by (rewrite E; by left).
  exists k, e. split; [by apply list_elem_of_In|]. by apply bool_decide_eq_true in He.
Qed.

Lemma init_consistent : consistent init.
Proof. split; [done|]. intros k e. simpl. by rewrite elem_of_nil. Qed.
End Visited.

(** ** The visited set and the aggregate: the claims *)
Section AgentClaims.
Context `{Python}.
Import StockDataAgent Run.
Variable w : world.

(** C2. A URL enters the visited set only when an extraction on it returns a
    record, which is never empty; no other operation of the agent adds one;
    and once a URL is in the set, every extraction on it later in the run
    returns nothing (and leaves the agent as it is).  A run is a sequence of
    the steps meant by "later". *)
Theorem visited_only_after_a_record url k st :
  match extract_data_from_url w url k st with
  | (Some d, st') =>
      (url ∉ collected_urls st) ∧ StockDataAgent.url d = url ∧ text_data d ≠ []
      ∧ collected_urls st' = {[ url ]} ∪ collected_urls st
  | (None, st') => collected_urls st' = collected_urls st
  end
  ∧ (∀ link retries, collected_urls (safe_goto w link retries st).2 = collected_urls st)
  ∧ (∀ e, collected_urls (emit e st) = collected_urls st)
  ∧ (∀ st', url ∈ collected_urls st → rtc (step w) st st' →
       ∀ k', extract_data_from_url w url k' st' = (None, st'))
  ∧ (∀ companies, rtc (step w) st (run w companies st))
  ∧ (∀ companies link, link ∈ collected_urls (run w companies init) →
       ∃ k' e, e ∈ data_points (run w companies init) k'
               ∧ entry_url e = link ∧ entry_text_data e ≠ []).
Proof.
  split; [|split; [|split; [|split; [|split]]]].
  - pose proof (extract_cases w url k st) as Hx.
    destruct (extract_data_from_url w url k st) as [[d|] st']; [|by destruct Hx].
    by destruct Hx as (? & ? & ? & ? & _).
  - intros link retries.
    by destruct (safe_goto_same_agent w link retries st) as (_ & _ & -> & _).
  - done.
  - intros st' Hu Hsteps k'. apply extract_visited.
    by apply (steps_collected w st st' Hsteps).
  - intros companies. apply run_steps.
  - intros companies link Hin.
    destruct (steps_consistent w init (run w companies init)) as [Hrec Hne];
      [apply run_steps|apply init_consistent|].
    destruct (records_positive link (run w companies init)) as (k' & e & He & Hu).
    { rewrite Hrec, bool_decide_eq_true_2 by done. lia. }
    exists k', e. eauto.
Qed.

(** The first record on a URL stops the data types tested after it. *)
Lemma first_record_stops_the_rest url k st d st' :
  extract_data_from_url w url k st = (Some d, st') →
  url ∈ collected_urls st' ∧ ∀ k', extract_data_from_url w url k' st' = (None, st').
Proof.
  intros Hx. pose proof (extract_cases w url k st) as Hc. rewrite Hx in Hc.
  destruct Hc as (_ & _ & _ & Hc & _).
  assert (url ∈ collected_urls st') as Hin
    by (rewrite Hc; by apply elem_of_union_l, elem_of_singleton).
  split; [done|]. intros k'. by apply extract_visited.
Qed.

Lemma test_visited company_name site_name url k st :
  url ∈ collected_urls st → test_data_type w company_name site_name url st k = st.
Proof. intros Hu. unfold test_data_type. by rewrite extract_visited. Qed.

Lemma tests_visited company_name site_name url ks st :
  url ∈ collected_urls st →
  foldl (test_data_type w company_name site_name url) st ks = st.
Proof.
  intros Hu. induction ks as [|k ks IH]; simpl; [done|]. by rewrite test_visited.
Qed.

(** One pass over data types adds at most one record for the URL. *)
Lemma tests_at_most_one company_name site_name url ks st :
  (records url (foldl (test_data_type w company_name site_name url) st ks)
   ≤ records url st + 1)%nat.
Proof.
  revert st. induction ks as [|k ks IH]; intros st; simpl; [lia|].
  pose proof (extract_cases w url k st) as Hx.
  destruct (extract_data_from_url w url k st) as [[d|] st1] eqn:Ex.
  - destruct (first_record_stops_the_rest _ _ _ _ _ Ex) as [Hin _].
    destruct Hx as (_ & Hu & _ & _ & Hd).
    unfold test_data_type at 2. rewrite Ex.
    rewrite tests_visited by done.
    rewrite records_append. cbn [entry_url].
    rewrite (records_same url st st1 Hd), Hu. case_bool_decide; lia.
  - destruct Hx as [_ Hd]. etrans; [apply IH|].
    unfold test_data_type. rewrite Ex. rewrite (records_same url st st1 Hd). lia.
Qed.

(** C8. In a run, every URL yields at most one record over the four
    categories: the data types are tested on a URL in the order growth_rate,
    performance, marginal_changes, capex, and the first that gives a record
    marks the URL visited, after which every test on that URL gives
    nothing. *)
Theorem at_most_one_record_per_url :
  keys = [growth_rate; performance; marginal_changes; capex]
  ∧ (∀ companies url, (records url (run w companies init) ≤ 1)%nat)
  ∧ (∀ company_name site_name url st,
       (records url (foldl (test_data_type w company_name site_name url) st keys)
        ≤ records url st + 1)%nat)
  ∧ (∀ url k st d st',
       extract_data_from_url w url k st = (Some d, st') →
       url ∈ collected_urls st'
       ∧ ∀ k', extract_data_from_url w url k' st' = (None, st')).
Proof.
  split; [done|]. split; [|split].
  - intros companies url.
    destruct (steps_consistent w init (run w companies init)) as [Hrec _];
      [apply run_steps|apply init_consistent|].
    rewrite Hrec. case_bool_decide; lia.
  - intros. apply tests_at_most_one.
  - intros url k st d st'. apply first_record_stops_the_rest.
Qed.
End AgentClaims.

(** ** Two runs on concrete documents *)
Section Scenes.
Context `{Python}.
Import StockDataAgent Run.

(** The scenes are evaluated: the fetch and the empty set unfold. *)
Local Transparent safe_goto gmap_empty.

(** The run of the end-to-end scenario, category by category. *)
Lemma one_site_run :
  let st := run one_site [u "TCS"] one_site_agent in
  data_points st growth_rate =
    [ {| company := u "TCS"; source := u "moneycontrol"; entry_url := results_url;
         entry_timestamp := u "now"; entry_text_data := [cell] |} ]
  ∧ data_points st performance = []
  ∧ data_points st marginal_changes = []
  ∧ data_points st capex = [].
Proof. lazy. done. Qed.

(** The same run from the agent as [__init__] builds it, with its five
    target sites: the renderer of the scene answers for the first site only,
    and the four others leave the agent as it is. *)
Lemma scrape_site_unavailable w company_name st site_name base_url :
  (∀ address, search_url site_name base_url company_name = Some address →
     goto w (navigations st) address = Failed) →
  same_agent st (scrape_site w company_name st (site_name, base_url)).
Proof.
  intros Hfail. unfold scrape_site.
  destruct (search_url site_name base_url company_name) as [address|].
  - rewrite (safe_goto_failed w address 0 st) by (by apply Hfail). simpl.
    by repeat split.
  - by repeat split.
Qed.

Lemma one_site_elsewhere n address :
  address ≠ u "https://www.moneycontrol.com/stocks/company-info/TCS" →
  address ≠ results_url →
  goto one_site n address = Failed.
Proof.
  intros H1 H2. unfold one_site, goto.
  rewrite (bool_decide_eq_false_2 _ H1), (bool_decide_eq_false_2 _ H2). reflexivity.
Qed.

Lemma run_one w company_name st :
  run w [company_name] st
  = emit (SleepRandom 2)
      (scrape_company w company_name (emit (Log INFO company_name) st)).
Proof. reflexivity. Qed.

Lemma scrape_company_five w company_name st s1 s2 s3 s4 s5 :
  target_sites st = [s1; s2; s3; s4; s5] →
  scrape_company w company_name st
  = scrape_site w company_name
      (scrape_site w company_name
         (scrape_site w company_name
            (scrape_site w company_name (scrape_site w company_name st s1) s2) s3)
         s4) s5.
Proof. unfold scrape_company. by intros ->. Qed.

(** Two addresses that differ at some character *)
Ltac differ :=
  let Heq := fresh in
  intros Heq; vm_compute in Heq; discriminate Heq.

Lemma other_site_unavailable st i site_name base_url :
  tail (target_sites init) !! i = Some (site_name, base_url) →
  same_agent st (scrape_site one_site (u "TCS") st (site_name, base_url)).
Proof.
  intros Hsite. apply scrape_site_unavailable. intros address Ha.
  revert Hsite Ha. unfold search_url. cbn [tail target_sites init].
  destruct i as [|[|[|[|i]]]]; cbn [lookup list_lookup]; [..|done];
    intros [= <- <-];
    vm_compute bool_decide; cbv iota;
    try destruct (quote _) as [q|]; try done;
    intros [= <-]; apply one_site_elsewhere; differ.
Qed.

Lemma default_agent_run :
  let st := run one_site [u "TCS"] init in
  data_points st growth_rate =
    [ {| company := u "TCS"; source := u "moneycontrol"; entry_url := results_url;
         entry_timestamp := u "now"; entry_text_data := [cell] |} ]
  ∧ data_points st performance = []
  ∧ data_points st marginal_changes = []
  ∧ data_points st capex = [].
Proof.
  intros st.
  set (st1 := scrape_site one_site (u "TCS") (emit (Log INFO (u "TCS")) init) moneycontrol).
  assert (Hd : data_points st = data_points st1).
  { subst st. rewrite run_one.
    rewrite (scrape_company_five one_site (u "TCS") _
               moneycontrol
               (u "screener", u "https://www.screener.in")
               (u "investing_india", u "https://in.investing.com")
               (u "economic_times", u "https://economictimes.indiatimes.com")
               (u "tickertape", u "https://www.tickertape.in")) by reflexivity.
    fold st1. clearbody st1.
    change (data_points (emit ?e ?s)) with (data_points s).
    destruct (other_site_unavailable
      (scrape_site one_site (u "TCS")
         (scrape_site one_site (u "TCS")
            (scrape_site one_site (u "TCS") st1
               (u "screener", u "https://www.screener.in"))
            (u "investing_india", u "https://in.investing.com"))
         (u "economic_times", u "https://economictimes.indiatimes.com"))
      3 _ _ eq_refl) as (_ & -> & _).
    destruct (other_site_unavailable
      (scrape_site one_site (u "TCS")
         (scrape_site one_site (u "TCS") st1
            (u "screener", u "https://www.screener.in"))
         (u "investing_india", u "https://in.investing.com"))
      2 _ _ eq_refl) as (_ & -> & _).
    destruct (other_site_unavailable
      (scrape_site one_site (u "TCS") st1
         (u "screener", u "https://www.screener.in"))
      1 _ _ eq_refl) as (_ & -> & _).
    by destruct (other_site_unavailable st1 0 _ _ eq_refl) as (_ & -> & _). }
  rewrite Hd. clear st Hd. subst st1. lazy. repeat split; reflexivity.
Qed.

(** C1, as the code has it.  For a company with one site whose document
    holds the single table cell "Capex grew 12% YoY to ₹500 crore", the cell
    matches the patterns of growth_rate, marginal_changes and capex (not
    performance), and a fresh agent asked for capex alone returns a record
    with the cleaned cell text; but in a run the data types are tested in
    the order of the dictionary, growth_rate gives the one record of the
    URL, and the later categories, capex among them, get none.  This holds
    for the agent with that site alone and for the agent with its five
    sites when only that one answers. *)
Theorem one_cell_one_category :
  FinancialDataParser.clean_text cell = cell
  ∧ Re.search (patterns growth_rate) cell ≠ None
  ∧ Re.search (patterns performance) cell = None
  ∧ Re.search (patterns marginal_changes) cell ≠ None
  ∧ Re.search (patterns capex) cell ≠ None
  ∧ text_data <$> (extract_data_from_url one_site results_url capex one_site_agent).1
    = Some [cell]
  ∧ ∀ agent, agent = one_site_agent ∨ agent = init →
      let st := run one_site [u "TCS"] agent in
      data_points st growth_rate =
        [ {| company := u "TCS"; source := u "moneycontrol"; entry_url := results_url;
             entry_timestamp := u "now"; entry_text_data := [cell] |} ]
      ∧ data_points st performance = []
      ∧ data_points st marginal_changes = []
      ∧ data_points st capex = [].
Proof.
  split; [by vm_compute|]. split; [by vm_compute|].
  split; [by vm_compute|]. split; [by vm_compute|]. split; [by vm_compute|].
  split; [by lazy|].
  intros agent [-> | ->]; [apply one_site_run|apply default_agent_run].
Qed.

(** C10. The length filter reads the raw text of an element, before it is
    cleaned: a paragraph "Growth!!!!!!!" (13 characters) gives the fragment
    "Growth", and a table cell of twelve exclamation marks, taken because
    another cell of its table matches, gives the empty fragment.  A record
    whose only fragment is empty is returned all the same, and its URL is
    marked visited. *)
Theorem short_fragments_are_kept :
  let a := u "https://example.com/a" in
  let b := u "https://example.com/b" in
  length (u "!!!!!!!!!!!!") = 12%nat
  ∧ FinancialDataParser.clean_text (u "!!!!!!!!!!!!") = []
  ∧ (extract_data_from_url punctuation a growth_rate init).1
    = Some {| url := a; timestamp := u "now"; text_data := [u "Growth"; []] |}
  ∧ a ∈ collected_urls (extract_data_from_url punctuation a growth_rate init).2
  ∧ (extract_data_from_url punctuation b growth_rate init).1
    = Some {| url := b; timestamp := u "now"; text_data := [[]] |}
  ∧ b ∈ collected_urls (extract_data_from_url punctuation b growth_rate init).2.
Proof.
  intros a b.
  assert (Ha : (extract_data_from_url punctuation a growth_rate init).1
               = Some {| url := a; timestamp := u "now"; text_data := [u "Growth"; []] |})
    by (by lazy).
  assert (Hb : (extract_data_from_url punctuation b growth_rate init).1
               = Some {| url := b; timestamp := u "now"; text_data := [[]] |})
    by (by lazy).
  split; [done|]. split; [by vm_compute|].
  split; [done|]. split; [|split; [done|]].
  - pose proof (extract_cases punctuation a growth_rate init) as Hx.
    destruct (extract_data_from_url punctuation a growth_rate init) as [[d|] st'];
      [|done].
    destruct Hx as (_ & _ & _ & Hc & _). cbn [snd]. rewrite Hc.
    by apply elem_of_union_l, elem_of_singleton.
  - pose proof (extract_cases punctuation b growth_rate init) as Hx.
    destruct (extract_data_from_url punctuation b growth_rate init) as [[d|] st'];
      [|done].
    destruct Hx as (_ & _ & _ & Hc & _). cbn [snd]. rewrite Hc.
    by apply elem_of_union_l, elem_of_singleton.
Qed.
End Scenes.

(** C1, as the specification states it, fails: after the run the capex
    category is empty. *)
Lemma one_cell_no_capex_record :
  ¬ (∀ P : Python,
       ∃ e, StockDataAgent.data_points
              (@StockDataAgent.run P Run.one_site [u "TCS"] Run.one_site_agent)
              StockDataAgent.capex = [e]
            ∧ @FinancialDataParser.clean_text P Run.cell ∈ StockDataAgent.entry_text_data e).
Proof.
  intros Hall. destruct (Hall plain) as (e & He & _).
  pose proof (@one_site_run plain) as Hrun. cbv zeta in Hrun.
  destruct Hrun as (_ & _ & _ & Hcapex). congruence.
Qed.

(** ** More on the quantity parser *)
Section ParserMore.
Context `{Python}.
Import Re Spec FinancialDataParser.

Lemma lstrip_suffix s : ∃ t, s = t ++ Py.lstrip s.
Proof.
  induction s as [|c r [t IH]]; simpl; [by exists []|].
  destruct (Py.isspace c); [|by exists []].
  exists (c :: t). simpl. by rewrite <- IH.
Qed.

Lemma lstrip_starts s c : head (Py.lstrip s) = Some c → Py.isspace c = false.
Proof.
  induction s as [|x r IH]; simpl; [done|].
  destruct (Py.isspace x) eqn:Hx; [done|]. simpl. by intros [= <-].
Qed.

Lemma rstrip_prefix s : ∃ t, s = Py.rstrip s ++ t.
Proof.
  unfold Py.rstrip. destruct (lstrip_suffix (reverse s)) as [t Ht].
  exists (reverse t). rewrite <- reverse_app, <- Ht. by rewrite reverse_involutive.
Qed.

Lemma strip_starts s c : head (Py.strip s) = Some c → Py.isspace c = false.
Proof.
  unfold Py.strip. intros Hc. apply (lstrip_starts s).
  destruct (rstrip_prefix (Py.lstrip s)) as [t Ht].
  rewrite Ht. destruct (Py.rstrip (Py.lstrip s)); [done|]. done.
Qed.

Lemma strip_ends s c : last (Py.strip s) = Some c → Py.isspace c = false.
Proof.
  unfold Py.strip, Py.rstrip. rewrite last_reverse. apply lstrip_starts.
Qed.

(** X1. What [clean_text] returns holds only word characters, white space
    and the symbols of its class, and neither starts nor ends with white
    space. *)
Theorem clean_text_is_clean_and_trimmed text :
  Forall (λ c, kept c = true) (clean_text text)
  ∧ (∀ c, head (clean_text text) = Some c → Py.isspace c = false)
  ∧ (∀ c, last (clean_text text) = Some c → Py.isspace c = false).
Proof.
  split; [apply clean_text_clean|].
  unfold clean_text. case_bool_decide; [done|]. cbv zeta.
  split; intros c; [apply strip_starts|apply strip_ends].
Qed.

(** X2. [clean_text] leaves unchanged what it returned for a text it
    removed no character from, and a second pass always gives a text that
    further passes leave unchanged. *)
Theorem clean_text_settles :
  (∀ text, Forall (λ c, kept c = true) text →
     clean_text (clean_text text) = clean_text text)
  ∧ (∀ text, clean_text (clean_text (clean_text text)) = clean_text (clean_text text)).
Proof.
  split.
  - intros text Ht. by apply clean_text_idempotent_on_clean.
  - intros text. apply clean_text_idempotent_on_clean, clean_text_clean.
Qed.

Lemma join_split_length s :
  (length (Py.join (u " ") (Py.split s)) ≤ length s)%nat
  ∧ (Py.starts_space s = true → s ≠ [] → Py.split s ≠ [] →
     length (Py.join (u " ") (Py.split s)) + 1 ≤ length s)%nat.
Proof.
  induction s as [|c r [IH1 IH2]]; [by split|].
  cbn [Py.split Py.starts_space].
  destruct (Py.isspace c) eqn:Hc.
  - split; [simpl; lia|]. intros _ _ _. simpl. lia.
  - split; [|done].
    destruct (Py.starts_space r) eqn:Hr.
    + cbn [Py.join]. destruct (Py.split r) as [|t ts] eqn:Es.
      * simpl. lia.
      * rewrite <- Es in *. rewrite !length_app. cbn [length].
        destruct r as [|x r']; [done|].
        specialize (IH2 eq_refl). rewrite Es in IH2.
        assert (length (Py.join (u " ") (t :: ts)) + 1 ≤ length (x :: r'))%nat
          by (apply IH2; done).
        rewrite Es. change (length (u " ")) with 1%nat. lia.
    + destruct (Py.split r) as [|t ts] eqn:Es; cbn [Py.push Py.join].
      * simpl. lia.
      * destruct ts as [|t' ts']; cbn [Py.join] in *; simpl length in *; lia.
Qed.

Lemma lstrip_length s : (length (Py.lstrip s) ≤ length s)%nat.
Proof. destruct (lstrip_suffix s) as [t Ht]. rewrite Ht at 2. rewrite length_app. lia. Qed.

Lemma strip_length s : (length (Py.strip s) ≤ length s)%nat.
Proof.
  unfold Py.strip, Py.rstrip. rewrite length_reverse.
  etrans; [apply lstrip_length|]. rewrite length_reverse. apply lstrip_length.
Qed.

Lemma split_blank s : Forall (λ c, Py.isspace c = true) s → Py.split s = [].
Proof. induction 1 as [|c r Hc _ IH]; simpl; [done|]. by rewrite Hc. Qed.

(** X3. [clean_text] never returns a text longer than the one it is given,
    and returns the empty text for a text of white space only. *)
Theorem clean_text_shrinks text :
  (length (clean_text text) ≤ length text)%nat
  ∧ (Forall (λ c, Py.isspace c = true) text → clean_text text = []).
Proof.
  unfold clean_text. case_bool_decide as He; [by subst|]. cbv zeta. split.
  - etrans; [apply strip_length|]. unfold sub_outside.
    etrans; [apply length_filter|]. apply join_split_length.
  - intros Hb. by rewrite split_blank.
Qed.
End ParserMore.

(** ** More on extract_percentage and extract_amount *)
Section AmountMore.
Context `{Python}.
Import Re Spec FinancialDataParser.

Lemma after_suffix p s : ∃ t, s = t ++ after p s.
Proof. exists (leading p s). by rewrite leading_after. Qed.

Lemma percentage_at_percent s t : percentage_at s = Some t → 37 ∈ s.
Proof.
  unfold percentage_at. destruct (signed_decimal_at s) as [[t' r]|] eqn:E; [|done].
  simpl. apply signed_decimal_at_app in E.
  destruct (after Py.isspace r) as [|c r'] eqn:Ea; [done|].
  destruct (c =? 37) eqn:Ec; [|done]. apply N.eqb_eq in Ec. subst c. intros _.
  destruct (after_suffix Py.isspace r) as [pre Hr]. rewrite Ea in Hr.
  rewrite <- E, Hr. rewrite !elem_of_app. right. right. by left.
Qed.

Lemma first_percentage_percent s t : first_percentage s = Some t → 37 ∈ s.
Proof.
  induction s as [|c r IH]; cbn [first_percentage].
  - destruct (percentage_at []) eqn:E; [|done]. intros _. by eapply percentage_at_percent.
  - destruct (percentage_at (c :: r)) eqn:E.
    + intros _. by eapply percentage_at_percent.
    + intros Hr. right. by apply IH.
Qed.

Lemma first_percentage_inside s t : first_percentage s = Some t → ∃ pre post, s = pre ++ t ++ post.
Proof.
  induction s as [|c r IH]; cbn [first_percentage].
  - destruct (percentage_at []) as [t'|] eqn:E; [|done]. intros [= ->].
    unfold percentage_at in E. destruct (signed_decimal_at []) as [[t' r']|] eqn:E'; [|done].
    apply signed_decimal_at_app in E'. simpl in E.
    destruct (after Py.isspace r') as [|x y]; [done|]. destruct (x =? 37); [|done].
    injection E as ->. exists [], r'. done.
  - destruct (percentage_at (c :: r)) as [t'|] eqn:E.
    + intros [= ->].
      unfold percentage_at in E.
      destruct (signed_decimal_at (c :: r)) as [[t' r']|] eqn:E'; [|done].
      apply signed_decimal_at_app in E'. simpl in E.
      destruct (after Py.isspace r') as [|x y]; [done|]. destruct (x =? 37); [|done].
      injection E as ->. exists [], r'. done.
    + intros Hr. destruct (IH Hr) as (pre & post & ->). by exists (c :: pre), post.
Qed.

(** X4. [extract_percentage] never raises; it returns nothing for a text
    without a percent sign; and what it returns is [float] of a piece of the
    text. *)
Theorem extract_percentage_needs_a_percent_sign text :
  extract_percentage text ≠ Raises
  ∧ ((37 ∉ text) → extract_percentage text = Returns None)
  ∧ (∀ x, extract_percentage text = Returns (Some x) →
       ∃ pre number post, text = pre ++ number ++ post ∧ x = float number).
Proof.
  rewrite extract_percentage_scan. split; [done|]. split.
  - intros Hno. destruct (first_percentage text) as [t|] eqn:E; [|done].
    by apply first_percentage_percent in E.
  - intros x. destruct (first_percentage text) as [t|] eqn:E; [|done].
    intros [= <-]. destruct (first_percentage_inside _ _ E) as (pre & post & ->).
    by exists pre, t, post.
Qed.

Lemma leading_nil_head p c r : leading p (c :: r) = [] ↔ p c = false.
Proof. simpl. destruct (p c); split; done. Qed.

Lemma leading_elem p s c : c ∈ leading p s → c ∈ s.
Proof. rewrite <- (leading_after p s) at 2. rewrite elem_of_app. by left. Qed.

Lemma signed_decimal_at_digit s t r :
  signed_decimal_at s = Some (t, r) → Exists (λ c, Py.isdecimal c = true) s.
Proof.
  unfold signed_decimal_at.
  pose proof (optional_app 45 s) as Ho.
  destruct (optional 45 s) as [minus s1]. simpl in Ho.
  case_bool_decide as Hi; [done|]. intros _.
  destruct (leading Py.isdecimal s1) as [|c l] eqn:El; [done|].
  apply Exists_exists. exists c. split.
  - rewrite <- Ho. rewrite elem_of_app. right. apply (leading_elem Py.isdecimal).
    rewrite El. by left.
  - pose proof (leading_Forall Py.isdecimal s1) as Hf. rewrite El in Hf.
    by apply Forall_cons in Hf as [? _].
Qed.

Lemma signed_decimal_at_of_digit c r :
  Py.isdecimal c = true → is_Some (signed_decimal_at (c :: r)).
Proof.
  intros Hc. unfold signed_decimal_at.
  rewrite (optional_other 45 c) by (by apply isdecimal_not_ascii_symbol).
  case_bool_decide as Hi.
  - apply leading_nil_head in Hi. congruence.
  - by destruct (optional 46 _).
Qed.

Lemma first_signed_decimal_none s :
  first_signed_decimal s = None ↔ Forall (λ c, Py.isdecimal c = false) s.
Proof.
  induction s as [|c r IH]; cbn [first_signed_decimal].
  - split; [constructor|]. intros _.
    destruct (signed_decimal_at []) as [[t r]|] eqn:E; [|done].
    apply signed_decimal_at_digit in E. by apply Exists_nil in E.
  - destruct (signed_decimal_at (c :: r)) as [[t r']|] eqn:E.
    + split; [done|]. intros Hf. apply signed_decimal_at_digit in E.
      apply Exists_exists in E as (x & Hx & Hd). rewrite Forall_forall in Hf.
      specialize (Hf x Hx). congruence.
    + rewrite IH, Forall_cons. split; [|by intros [_ ?]].
      intros Hr. split; [|done].
      destruct (Py.isdecimal c) eqn:Hc; [|done].
      destruct (signed_decimal_at_of_digit c r Hc) as [x Hx]. congruence.
Qed.

(** X5. [extract_amount] returns nothing exactly when the text, lower-cased
    and without its commas, holds no decimal digit.  It raises only when a
    unit keyword is present and the number times the unit's factor is
    10^999999 or more ([decimal.Overflow] in the multiplication); and it
    does raise for 999,994 nines or more followed by " cr". *)
Theorem extract_amount_needs_a_digit :
  (∀ text,
     (extract_amount text = Returns None
      ↔ Forall (λ c, Py.isdecimal c = false) (Py.lower (Py.replace 44 [] text)))
     ∧ (extract_amount text = Raises →
        ∃ number amount f,
          first_signed_decimal (Py.lower (Py.replace 44 [] text)) = Some number
          ∧ Dec.Decimal number = Some amount
          ∧ unit_factor (Py.lower (Py.replace 44 [] text)) = Some f
          ∧ 10 ^ Z.to_N (Dec.Emax - Dec.exponent amount) ≤ Dec.coeff amount * f))
  ∧ (∀ n, 999994 ≤ N.of_nat n → extract_amount (repeat 57 n ++ u " cr") = Raises).
Proof.
  split; [|apply extract_amount_nines].
  intros text. rewrite extract_amount_scan. cbv zeta. set (t := Py.lower _).
  rewrite <- first_signed_decimal_none.
  destruct (first_signed_decimal t) as [number|] eqn:E; [|by split].
  destruct (first_signed_decimal_Decimal _ _ E) as [amount Ha].
  cbn [mbind option_bind]. rewrite Ha.
  destruct (unit_factor t) as [f|]; [|by split].
  rewrite mul_of_N.
  destruct (Dec._fix _) as [x|] eqn:Ex; [by split|].
  split; [done|]. intros _. exists number, amount, f. split_and!; try done.
  apply fix_none_large in Ex; [done|]. cbn [Dec.exponent].
  by eapply Decimal_exponent.
Qed.

Lemma replace_away_again c s : Py.replace c [] (Py.replace c [] s) = Py.replace c [] s.
Proof.
  unfold Py.replace. induction s as [|x r IH]; simpl; [done|].
  destruct (x =? c) eqn:E; simpl; [done|]. by rewrite E, IH.
Qed.

(** X6. Commas carry no meaning for [extract_amount]: a text and the same
    text without its commas give the same result ("1,234 cr" as "1234 cr"). *)
Theorem extract_amount_ignores_commas text :
  extract_amount (Py.replace 44 [] text) = extract_amount text.
Proof. rewrite !extract_amount_scan. cbv zeta. by rewrite replace_away_again. Qed.
End AmountMore.

(** ** More on the fetch controller *)
Section FetchMore.
Context `{Python}.
Import StockDataAgent Run More.
Variable w : world.

Lemma safe_goto_within url retries st :
  let '(ok, st') := safe_goto w url retries st in
  (navigations st < navigations st'
   ∧ navigations st' ≤ navigations st + S (max_retries st - retries))%nat
  ∧ (if ok then ∃ content, goto w (navigations st' - 1) url = Loaded content
                           ∧ page st' = content
     else page st' = page st)
  ∧ trace st `prefix_of` trace st'.
Proof.
  remember (max_retries st - retries)%nat as n eqn:Hn.
  revert retries st Hn. induction n as [|n IH]; intros retries st Hn.
  - destruct (goto w (navigations st) url) as [content| |] eqn:Hg.
    + rewrite (safe_goto_loaded _ _ _ _ _ Hg). simpl.
      split; [lia|]. split.
      * exists content. by rewrite Nat.sub_0_r.
      * rewrite <- app_assoc. by apply prefix_app_r.
    + rewrite safe_goto_exhausted by (done || lia). simpl.
      split; [lia|]. split; [done|]. rewrite <- app_assoc. by apply prefix_app_r.
    + rewrite safe_goto_failed by done. simpl.
      split; [lia|]. split; [done|]. rewrite <- app_assoc. by apply prefix_app_r.
  - destruct (goto w (navigations st) url) as [content| |] eqn:Hg.
    + rewrite (safe_goto_loaded _ _ _ _ _ Hg). simpl.
      split; [lia|]. split.
      * exists content. by rewrite Nat.sub_0_r.
      * rewrite <- app_assoc. by apply prefix_app_r.
    + rewrite safe_goto_retry by (done || lia).
      specialize (IH (S retries)
        (emit (Sleep (2 * (N.of_nat retries + 1)))
           (emit (Log WARNING url) (navigate url st)))).
      destruct (safe_goto w url (S retries) _) as [ok st'].
      destruct IH as ([Hlo Hhi] & Hpage & Htrace); [simpl; lia|].
      simpl in Hlo, Hhi, Hpage, Htrace.
      split; [lia|]. split; [done|].
      etrans; [|exact Htrace]. rewrite <- !app_assoc. by apply prefix_app_r.
    + rewrite safe_goto_failed by done. simpl.
      split; [lia|]. split; [done|]. rewrite <- app_assoc. by apply prefix_app_r.
Qed.

(** X7. Whatever the renderer does, [safe_goto] navigates at least once and
    at most once more than the retries it has left; it changes nothing of
    the agent (sites, aggregate, visited set, settings); when it returns
    [True] its last navigation loaded the page it leaves, when it returns
    [False] the page is the one it found; and it only adds to the trace. *)
Theorem safe_goto_is_bounded url retries st :
  let '(ok, st') := safe_goto w url retries st in
  (navigations st < navigations st'
   ∧ navigations st' ≤ navigations st + S (max_retries st - retries))%nat
  ∧ same_agent st st'
  ∧ (if ok then ∃ content, goto w (navigations st' - 1) url = Loaded content
                           ∧ page st' = content
     else page st' = page st)
  ∧ trace st `prefix_of` trace st'.
Proof.
  pose proof (safe_goto_within url retries st) as Hw.
  pose proof (safe_goto_same_agent w url retries st) as Hs.
  destruct (safe_goto w url retries st) as [ok st']. simpl in Hs.
  destruct Hw as (? & ? & ?). done.
Qed.

(** The seconds slept in a sequence of events, random parts left out *)
Lemma paused_app l1 l2 : paused (l1 ++ l2) = paused l1 + paused l2.
Proof.
  induction l1 as [|e l1 IH]; simpl; [done|]. rewrite IH. destruct e; lia.
Qed.

Lemma paused_timeouts url t first n :
  paused (timeouts url t first n)
  = N.of_nat (first + n) * (N.of_nat (first + n) + 1) - N.of_nat first * (N.of_nat first + 1).
Proof.
  revert first. induction n as [|n IH]; intros first.
  - simpl. rewrite Nat.add_0_r. lia.
  - cbn [timeouts]. rewrite paused_app, IH. cbn [paused].
    replace (S first + n)%nat with (first + S n)%nat by lia. nia.
Qed.

(** X8. For any number of retries allowed: when every navigation of a URL
    times out, [safe_goto] entered with [retries] makes
    [max_retries - retries + 1] navigations, pauses [2 * (k + 1)] after the
    attempt numbered [k], and returns [False]; the pauses add up to
    [max_retries * (max_retries + 1) - retries * (retries + 1)] seconds. *)
Theorem safe_goto_all_timeouts url retries st :
  (∀ n, goto w n url = TimedOut) →
  (retries ≤ max_retries st)%nat →
  let '(ok, st') := safe_goto w url retries st in
  ok = false
  ∧ trace st' = trace st ++ timeouts url (timeout st) retries (max_retries st - retries)
  ∧ navigations st' = (navigations st + S (max_retries st - retries))%nat
  ∧ paused (timeouts url (timeout st) retries (max_retries st - retries))
    = N.of_nat (max_retries st) * (N.of_nat (max_retries st) + 1)
      - N.of_nat retries * (N.of_nat retries + 1).
Proof.
  intros Hw Hle. pose proof (safe_goto_timeouts w url retries st Hw Hle) as Ht.
  destruct (safe_goto w url retries st) as [ok st'].
  destruct Ht as (? & ? & ?). repeat split; [done..|].
  rewrite paused_timeouts. by replace (retries + (max_retries st - retries))%nat
    with (max_retries st) by lia.
Qed.

(** X9. When the first [k] navigations time out and the next one loads, with
    [k] retries still allowed, [safe_goto] returns [True] after [k] retries
    with their pauses and the pause of two seconds that follows a load, and
    leaves the loaded page. *)
Theorem safe_goto_recovers url retries st k content :
  (∀ i, (i < k)%nat → goto w (navigations st + i) url = TimedOut) →
  goto w (navigations st + k) url = Loaded content →
  (retries + k ≤ max_retries st)%nat →
  let '(ok, st') := safe_goto w url retries st in
  ok = true
  ∧ trace st' = trace st ++ retried url (timeout st) retries k
                ++ [Navigate url (timeout st); Sleep 2]
  ∧ page st' = content
  ∧ navigations st' = (navigations st + k + 1)%nat.
Proof.
  revert retries st. induction k as [|k IH]; intros retries st Ht Hl Hle.
  - rewrite Nat.add_0_r in Hl. rewrite (safe_goto_loaded _ _ _ _ _ Hl). simpl.
    repeat split; [by rewrite <- app_assoc|lia].
  - assert (goto w (navigations st) url = TimedOut) as Hg.
    { rewrite <- (Nat.add_0_r (navigations st)). apply Ht. lia. }
    rewrite safe_goto_retry by (done || lia).
    specialize (IH (S retries)
      (emit (Sleep (2 * (N.of_nat retries + 1)))
         (emit (Log WARNING url) (navigate url st)))).
    destruct (safe_goto w url (S retries) _) as [ok st'].
    destruct IH as (Hok & Htr & Hp & Hn).
    + intros i Hi. simpl. rewrite <- Nat.add_succ_r. apply Ht. lia.
    + simpl. by rewrite <- Nat.add_succ_r.
    + simpl. lia.
    + split; [done|]. split; [|split; [done|simpl in Hn; lia]].
      rewrite Htr. simpl. by rewrite <- !app_assoc.
Qed.
End FetchMore.

(** X8 on the renderer that always times out, entered with one retry used. *)
Lemma safe_goto_all_timeouts_witness :
  let '(ok, st') :=
    StockDataAgent.safe_goto Run.unreachable (u "https://example.com") 1
      StockDataAgent.init in
  ok = false
  ∧ StockDataAgent.trace st'
    = StockDataAgent.trace StockDataAgent.init
      ++ Run.timeouts (u "https://example.com")
           (StockDataAgent.timeout StockDataAgent.init) 1
           (StockDataAgent.max_retries StockDataAgent.init - 1)
  ∧ StockDataAgent.navigations st'
    = (StockDataAgent.navigations StockDataAgent.init
       + S (StockDataAgent.max_retries StockDataAgent.init - 1))%nat
  ∧ More.paused (Run.timeouts (u "https://example.com")
                   (StockDataAgent.timeout StockDataAgent.init) 1
                   (StockDataAgent.max_retries StockDataAgent.init - 1))
    = N.of_nat (StockDataAgent.max_retries StockDataAgent.init)
      * (N.of_nat (StockDataAgent.max_retries StockDataAgent.init) + 1)
      - N.of_nat 1 * (N.of_nat 1 + 1).
Proof.
  apply (safe_goto_all_timeouts Run.unreachable (u "https://example.com") 1
           StockDataAgent.init).
  - intros n. reflexivity.
  - simpl. lia.
Defined.

(** X9 on a renderer that times out twice and then loads. *)
Lemma safe_goto_recovers_witness :
  let '(ok, st') :=
    StockDataAgent.safe_goto More.flaky (u "https://example.com") 0
      StockDataAgent.init in
  ok = true
  ∧ StockDataAgent.trace st'
    = StockDataAgent.trace StockDataAgent.init
      ++ More.retried (u "https://example.com")
           (StockDataAgent.timeout StockDataAgent.init) 0 2
      ++ [StockDataAgent.Navigate (u "https://example.com")
            (StockDataAgent.timeout StockDataAgent.init);
          StockDataAgent.Sleep 2]
  ∧ StockDataAgent.page st' = Some Run.results_page
  ∧ StockDataAgent.navigations st'
    = (StockDataAgent.navigations StockDataAgent.init + 2 + 1)%nat.
Proof.
  apply (safe_goto_recovers More.flaky (u "https://example.com") 0
           StockDataAgent.init 2 (Some Run.results_page)).
  - intros i Hi. simpl. destruct i as [|[|i]]; [reflexivity..|lia].
  - reflexivity.
  - simpl. lia.
Defined.

(** ** More on the extractor *)
Section ExtractMore.
Context `{Python}.
Import StockDataAgent Run More.
Variable w : world.

Lemma add_text_cases acc elem :
  add_text acc elem = acc
  ∨ (add_text acc elem = acc ++ [FinancialDataParser.clean_text (Soup.get_text_strip elem)]
     ∧ (FinancialDataParser.clean_text (Soup.get_text_strip elem) ∉ acc)
     ∧ (10 < length (Py.strip (Soup.get_text_strip elem)))%nat).
Proof.
  unfold add_text. cbv zeta.
  destruct (bool_decide (Soup.get_text_strip elem ≠ [])); simpl; [|by left].
  case_bool_decide as Hlen; simpl; [|by left].
  case_bool_decide as Hin; [by left|]. by right.
Qed.

Lemma add_text_long acc elem :
  (10 < length (Py.strip (Soup.get_text_strip elem)))%nat →
  FinancialDataParser.clean_text (Soup.get_text_strip elem) ∈ add_text acc elem.
Proof.
  intros Hlen. unfold add_text. cbv zeta.
  assert (Soup.get_text_strip elem ≠ []) as Hne.
  { intros He. rewrite He in Hlen. simpl in Hlen. lia. }
  rewrite (bool_decide_eq_true_2 _ Hne), (bool_decide_eq_true_2 _ Hlen). simpl.
  case_bool_decide as Hin; [done|]. rewrite elem_of_app, list_elem_of_singleton. by right.
Qed.

Lemma add_text_grows acc elem f : f ∈ acc → f ∈ add_text acc elem.
Proof.
  intros Hf. destruct (add_text_cases acc elem) as [->|[-> _]]; [done|].
  rewrite elem_of_app. by left.
Qed.

Lemma foldl_add_text_grows l acc f : f ∈ acc → f ∈ foldl add_text acc l.
Proof.
  revert acc. induction l as [|e l IH]; intros acc Hf; simpl; [done|].
  by apply IH, add_text_grows.
Qed.

Lemma foldl_add_text els l acc :
  l ⊆ els → NoDup acc → Forall (fragment_of els) acc →
  NoDup (foldl add_text acc l)
  ∧ Forall (fragment_of els) (foldl add_text acc l)
  ∧ (∀ elem, elem ∈ l → (10 < length (Py.strip (Soup.get_text_strip elem)))%nat →
       FinancialDataParser.clean_text (Soup.get_text_strip elem) ∈ foldl add_text acc l).
Proof.
  revert acc. induction l as [|e l IH]; intros acc Hl Hnd Hfr; simpl.
  - split; [done|]. split; [done|]. intros elem He. by apply elem_of_nil in He.
  - assert (e ∈ els) as He by (apply Hl; by left).
    assert (l ⊆ els) as Hl' by (intros x Hx; apply Hl; by right).
    assert (NoDup (add_text acc e) ∧ Forall (fragment_of els) (add_text acc e)) as [Hnd' Hfr'].
    { destruct (add_text_cases acc e) as [->|(-> & Hnew & Hlen)]; [done|]. split.
      - apply NoDup_app. split; [done|]. split; [|apply NoDup_singleton].
        intros x Hx ->%list_elem_of_singleton. done.
      - apply Forall_app. split; [done|]. apply Forall_singleton. by exists e. }
    destruct (IH (add_text acc e) Hl' Hnd' Hfr') as (? & ? & Hall).
    split; [done|]. split; [done|].
    intros elem [->|Hin]%elem_of_cons Hlen; [|by apply Hall].
    by apply foldl_add_text_grows, add_text_long.
Qed.

Lemma extracted_fragments url k st :
  match extract_data_from_url w url k st with
  | (Some d, st') =>
      NoDup (text_data d)
      ∧ Forall (Forall (λ c, FinancialDataParser.kept c = true)) (text_data d)
      ∧ ∃ soup, page st' = Some soup
          ∧ ∀ f, f ∈ text_data d ↔ fragment_of (elements (patterns k) soup) f
  | (None, _) => True
  end.
Proof.
  unfold extract_data_from_url. case_bool_decide; [done|].
  destruct (safe_goto w url 0 st) as [ok st1]. destruct ok; simpl; [|done].
  destruct (page st1) as [soup|] eqn:Hp; [|done].
  case_bool_decide as Hne; [|done].
  destruct (foldl_add_text (elements (patterns k) soup) (elements (patterns k) soup) [])
    as (Hnd & Hfr & Hall); [done|constructor|constructor|].
  cbn [text_data]. split; [done|]. split.
  - eapply Forall_impl; [exact Hfr|]. intros f (elem & _ & _ & ->).
    apply clean_text_clean.
  - exists soup. split; [done|]. intros f. split.
    + rewrite Forall_forall in Hfr. apply Hfr.
    + intros (elem & He & Hlen & ->). by apply Hall.
Qed.

(** The scenes are evaluated: the fetch and the empty set unfold. *)
Local Transparent safe_goto gmap_empty.

(** X10. The fragments of a returned record are distinct; each is the
    cleaned text of an element of the loaded page that matched and whose
    raw text is longer than ten characters; every such element has its
    cleaned text among them; and each fragment holds kept characters
    only.  The text of an element leaves out the scripts and the comments
    under it, which the search for the pattern does see: a cell with a
    script "var yoy = 1;" and the text "A fairly long cell text" gives that
    text alone, and a cell with a matching comment alone gives no record;
    a CDATA section counts as text. *)
Theorem fragments_of_a_record :
  (∀ url k st,
     match extract_data_from_url w url k st with
     | (Some d, st') =>
         NoDup (text_data d)
         ∧ Forall (Forall (λ c, FinancialDataParser.kept c = true)) (text_data d)
         ∧ ∃ soup, page st' = Some soup
             ∧ ∀ f, f ∈ text_data d ↔ fragment_of (elements (patterns k) soup) f
     | (None, _) => True
     end)
  ∧ (extract_data_from_url scripted (u "https://example.com/script") growth_rate init).1
    = Some {| url := u "https://example.com/script"; timestamp := u "now";
              text_data := [u "A fairly long cell text"] |}
  ∧ Soup.get_text_strip
      (Soup.Tag (u "td") []
         [Soup.Special Soup.Script (u "var yoy = 1;");
          Soup.Text (u "A fairly long cell text")])
    = u "A fairly long cell text"
  ∧ Soup.get_text_strip
      (Soup.Tag (u "td") []
         [Soup.Special Soup.CData (u " kept "); Soup.Special Soup.Comment (u "left out");
          Soup.Tag (u "b") [] [Soup.Text (u " too ")]])
    = u "kepttoo"
  ∧ Soup.find_text (patterns growth_rate) scripted_page = Some (u "var yoy = 1;")
  ∧ (extract_data_from_url scripted (u "https://example.com/comment") growth_rate init).1
    = None
  ∧ length (elements (patterns growth_rate) commented_page) = 4%nat.
Proof.
  split; [apply extracted_fragments|].
  split; [by lazy|]. split; [by vm_compute|]. split; [by vm_compute|].
  split; [by vm_compute|]. split; [by lazy|]. by vm_compute.
Qed.

(** X11. An extraction on a visited URL does nothing at all; on any other
    URL it navigates at least once and at most [max_retries + 1] times,
    whatever it returns. *)
Theorem extraction_navigates_unless_visited url k st :
  let '(r, st') := extract_data_from_url w url k st in
  (url ∈ collected_urls st → r = None ∧ st' = st)
  ∧ ((url ∉ collected_urls st) →
     (navigations st < navigations st'
      ∧ navigations st' ≤ navigations st + S (max_retries st))%nat).
Proof.
  unfold extract_data_from_url. case_bool_decide as Hv; [by split|].
  pose proof (safe_goto_within w url 0 st) as Hw.
  destruct (safe_goto w url 0 st) as [ok st1].
  destruct Hw as ([Hlo Hhi] & _). rewrite Nat.sub_0_r in Hhi.
  destruct ok; simpl.
  - destruct (page st1); [case_bool_decide|]; simpl; by split.
  - by split.
Qed.
End ExtractMore.

(** ** More on the links of a search page *)
Section LinksMore.
Context `{Python}.
Import StockDataAgent Run More.

Lemma relevant_urls_resolved base_url company_name links :
  relevant_urls base_url company_name links
  = (hrefs ← mapM (resolve base_url) links;
     Some (List.filter (has_keyword company_name) hrefs)).
Proof.
  induction links as [|link links IH]; [done|].
  cbn [relevant_urls mapM]. rewrite IH.
  generalize (mapM (resolve base_url) links) as rest. intros rest. unfold resolve.
  destruct (Soup.get_attr (u "href") link) as [href|]; [|reflexivity].
  cbn [mbind option_bind].
  generalize (if Py.startswith (u "http") href then Some href
              else urljoin base_url href) as resolved.
  intros [href'|]; [|reflexivity]. cbn [mbind option_bind].
  destruct rest as [hrefs|]; [|reflexivity].
  cbn [mbind option_bind mret option_ret List.filter].
  unfold has_keyword, keywords. by destruct (existsb _ _).
Qed.

Lemma startswith_prefix p s : Py.startswith p s = true ↔ ∃ post, s = p ++ post.
Proof.
  revert s. induction p as [|a p IH]; intros s.
  - split; [intros _; by exists s|by destruct s].
  - destruct s as [|b s]; cbn [Py.startswith].
    + split; [done|]. by intros [post ?].
    + rewrite andb_true_iff, N.eqb_eq, IH. split.
      * intros [-> [post ->]]. by exists post.
      * intros [post [= -> ->]]. split; [done|]. by exists post.
Qed.

Lemma contains_infix p s : Py.contains p s = true ↔ ∃ pre post, s = pre ++ p ++ post.
Proof.
  induction s as [|c s IH]; cbn [Py.contains]; rewrite orb_true_iff, startswith_prefix.
  - split.
    + intros [[post ->]|?]; [|done]. by exists [], post.
    + intros (pre & post & Heq). left. destruct pre; [by exists post|done].
  - rewrite IH. split.
    + intros [[post ->]|(pre & post & ->)]; [by exists [], post|by exists (c :: pre), post].
    + intros (pre & post & Heq). destruct pre as [|x pre].
      * left. by exists post.
      * right. injection Heq as -> ->. by exists pre, post.
Qed.

(** X12. The links kept from a search page are exactly the resolved
    addresses that hold a keyword (stock, company, financial, share, quote
    or the company's slug, anywhere in the lower-cased address), in the
    order of the page and as many times as they occur there; the loop
    raises exactly when some link has no address that resolves.  A link
    that occurs twice is kept twice. *)
Theorem relevant_urls_are_the_keyword_links :
  (∀ base_url company_name links,
     relevant_urls base_url company_name links
     = (hrefs ← mapM (resolve base_url) links;
        Some (List.filter (has_keyword company_name) hrefs)))
  ∧ (∀ company_name href,
       has_keyword company_name href = true
       ↔ ∃ keyword pre post, keyword ∈ keywords company_name
                              ∧ Py.lower href = pre ++ keyword ++ post)
  ∧ (∀ base_url company_name links,
       relevant_urls base_url company_name links = None
       ↔ ∃ link, link ∈ links ∧ resolve base_url link = None)
  ∧ (∀ base_url company_name,
       let link := Soup.Tag (u "a") [(u "href", u "https://example.com/stock")] [] in
       relevant_urls base_url company_name [link; link]
       = Some [u "https://example.com/stock"; u "https://example.com/stock"]).
Proof.
  split_and!.
  - apply relevant_urls_resolved.
  - intros company_name href. unfold has_keyword.
    rewrite existsb_exists. split.
    + intros (keyword & Hin & Hc). apply contains_infix in Hc as (pre & post & Heq).
      exists keyword, pre, post. by rewrite list_elem_of_In.
    + intros (keyword & pre & post & Hin & Heq). exists keyword.
      rewrite <- list_elem_of_In. split; [done|].
      apply contains_infix. by exists pre, post.
  - intros base_url company_name links. rewrite relevant_urls_resolved.
    destruct (mapM (resolve base_url) links) as [hrefs|] eqn:E; cbn [mbind option_bind].
    + split; [done|]. intros (link & Hin & Hn).
      assert (mapM (resolve base_url) links = None) as Hm.
      { apply mapM_None, Exists_exists. by exists link. }
      congruence.
    + split; [|done]. intros _.
      apply mapM_None in E. apply Exists_exists in E as (link & Hin & Hn).
      by exists link.
  - intros base_url company_name link. by lazy.
Qed.

Lemma contains_empty s : Py.contains [] s = true.
Proof. by destruct s. Qed.

(** X13. With the empty company name the slug is the empty text, which every
    address holds: no link is filtered out. *)
Theorem empty_company_name_keeps_every_link base_url links :
  relevant_urls base_url [] links = mapM (resolve base_url) links.
Proof.
  rewrite relevant_urls_resolved.
  destruct (mapM (resolve base_url) links) as [hrefs|]; [|done]. simpl. f_equal.
  induction hrefs as [|href hrefs IH]; [done|]. cbn [List.filter].
  assert (has_keyword [] href = true) as ->.
  { unfold has_keyword, keywords. apply existsb_exists. exists [].
    split; [|apply contains_empty]. cbn. auto 10. }
  by rewrite IH.
Qed.
End LinksMore.

(** ** Bounds and frame of a run *)
Section RunMore.
Import StockDataAgent Run More Grow.
Context `{Python}.
Variable w : world.

Lemma within_refl st : within 0 0 st st.
Proof. unfold within. split_and!; (lia || done). Qed.

Lemma within_trans a b c d st st1 st2 :
  within a b st st1 → within c d st1 st2 → within (a + c) (b + d) st st2.
Proof.
  intros ((? & ? & ?) & ? & ? & ? & ?) ((? & ? & ?) & ? & ? & ? & ?).
  unfold within. split_and!; try congruence; try lia; by etrans.
Qed.

Lemma within_mono a b a' b' st st' :
  (a ≤ a')%nat → (b ≤ b')%nat → within a b st st' → within a' b' st st'.
Proof.
  intros ? ? ((? & ? & ?) & ? & ? & ? & ?).
  unfold within. split_and!; try done; lia.
Qed.

Lemma total_records_same st st' :
  data_points st' = data_points st → total_records st' = total_records st.
Proof. unfold total_records. by intros ->. Qed.

Lemma within_emit e st : within 0 0 st (emit e st).
Proof.
  unfold within. rewrite (total_records_same st (emit e st)) by done. simpl.
  split_and!; try done; try lia. by apply prefix_app_r.
Qed.

Lemma total_records_append k e st :
  total_records (append k e st) = S (total_records st).
Proof.
  unfold total_records, keys. cbn [map sum_list sum_list_with data_points append].
  destruct k; repeat (destruct (decide (_ = _)) as [?|?]; try discriminate; try done);
    rewrite ?length_app; simpl; lia.
Qed.

Lemma within_safe_goto url retries st :
  within (S (max_retries st)) 0 st (safe_goto w url retries st).2.
Proof.
  pose proof (safe_goto_within w url retries st) as Hw.
  pose proof (safe_goto_same_agent w url retries st) as Hs.
  destruct (safe_goto w url retries st) as [ok st']. simpl in *.
  destruct Hw as ([? ?] & _ & ?). destruct Hs as (? & Hd & Hc & ? & ?).
  unfold within. rewrite (total_records_same _ _ Hd), Hc.
  split_and!; try done; lia.
Qed.

Lemma within_collect url st : within 0 0 st (collect url st).
Proof.
  unfold within. rewrite (total_records_same st (collect url st)) by done. simpl.
  split_and!; try done; try lia. apply union_subseteq_r.
Qed.

Lemma within_extract url k st :
  within (S (max_retries st)) 0 st (extract_data_from_url w url k st).2.
Proof.
  unfold extract_data_from_url. case_bool_decide.
  { simpl. eapply within_mono; [| |apply within_refl]; lia. }
  pose proof (within_safe_goto url 0 st) as Hw.
  destruct (safe_goto w url 0 st) as [ok st1]. simpl in Hw.
  destruct ok; simpl; [|done].
  destruct (page st1); [case_bool_decide|]; simpl; try done.
  - eapply within_mono; [| |exact (within_trans _ _ _ _ _ _ _ Hw (within_collect url st1))]; lia.
  - eapply within_mono; [| |exact (within_trans _ _ _ _ _ _ _ Hw (within_emit _ st1))]; lia.
Qed.

Lemma within_append k e st : within 0 1 st (append k e st).
Proof.
  unfold within. rewrite total_records_append. simpl.
  split_and!; try done; lia.
Qed.

Lemma within_test company_name site_name url st k :
  within (S (max_retries st)) 1 st (test_data_type w company_name site_name url st k).
Proof.
  unfold test_data_type.
  pose proof (within_extract url k st) as Hw.
  destruct (extract_data_from_url w url k st) as [[d|] st1]; simpl in Hw.
  - eapply within_mono; [| |exact (within_trans _ _ _ _ _ _ _ Hw (within_append _ _ st1))]; lia.
  - eapply within_mono; [| |exact Hw]; lia.
Qed.

Lemma within_foldl {A} (f : state → A → state) m sites a b l st :
  (∀ st x, max_retries st = m → target_sites st = sites → within a b st (f st x)) →
  max_retries st = m → target_sites st = sites →
  within (length l * a) (length l * b) st (foldl f st l).
Proof.
  intros Hf. revert st. induction l as [|x l IH]; intros st Hm Hs; simpl.
  - apply within_refl.
  - pose proof (Hf st x Hm Hs) as Hx.
    assert (max_retries (f st x) = m ∧ target_sites (f st x) = sites) as [Hm' Hs'].
    { destruct Hx as ((? & ? & ?) & _). split; congruence. }
    exact (within_trans _ _ _ _ _ _ _ Hx (IH _ Hm' Hs')).
Qed.

(** A URL gives one record at most, whatever the data types tested *)
Lemma tests_total company_name site_name url ks st :
  (total_records (foldl (test_data_type w company_name site_name url) st ks)
   ≤ total_records st + 1)%nat.
Proof.
  revert st. induction ks as [|k ks IH]; intros st; simpl; [lia|].
  unfold test_data_type at 2.
  pose proof (extract_cases w url k st) as Hc.
  destruct (extract_data_from_url w url k st) as [[d|] st1].
  - destruct Hc as (_ & _ & _ & Hv & Hd).
    rewrite tests_visited.
    + rewrite total_records_append, (total_records_same _ _ Hd). lia.
    + simpl. rewrite Hv. apply elem_of_union_l, elem_of_singleton. done.
  - destruct Hc as (_ & Hd). etrans; [apply IH|].
    rewrite (total_records_same _ _ Hd). lia.
Qed.

Lemma within_tighten a b b' st st' :
  within a b st st' → (total_records st' ≤ total_records st + b')%nat →
  within a b' st st'.
Proof. intros (? & ? & _ & ? & ?) ?. unfold within. tauto. Qed.

Lemma within_process_url company_name site_name st url :
  within (4 * S (max_retries st)) 1 st (process_url w company_name site_name st url).
Proof.
  unfold process_url.
  assert (within (4 * S (max_retries st)) 4 st
            (foldl (test_data_type w company_name site_name url) st keys)) as Hw.
  { apply (within_foldl (test_data_type w company_name site_name url)
             (max_retries st) (target_sites st) (S (max_retries st)) 1 keys st);
      [|done|done].
    intros st0 k <- _. apply within_test. }
  eapply within_mono;
    [| |exact (within_trans _ _ _ _ _ _ _
                 (within_tighten _ _ 1 _ _ Hw (tests_total company_name site_name url keys st))
                 (within_emit (SleepRandom 1) _))]; lia.
Qed.

Lemma within_scrape_site company_name st site :
  within (13 * S (max_retries st)) 3 st (scrape_site w company_name st site).
Proof.
  unfold scrape_site. destruct site as [site_name base_url].
  destruct (search_url site_name base_url company_name) as [search|].
  2: { eapply within_mono; [| |apply within_emit]; lia. }
  pose proof (within_safe_goto search 0 st) as Hw.
  destruct (safe_goto w search 0 st) as [ok st1]. simpl in Hw.
  destruct ok; simpl.
  2: { eapply within_mono; [| |exact Hw]; lia. }
  pose proof (within_trans _ _ _ _ _ _ _ Hw (within_emit (SleepRandom 1) st1)) as Hw1.
  destruct (page st1) as [soup|].
  2: { eapply within_mono; [| |exact (within_trans _ _ _ _ _ _ _ Hw1 (within_emit _ _))]; lia. }
  destruct (relevant_urls _ _ _) as [relevant|].
  2: { eapply within_mono; [| |exact (within_trans _ _ _ _ _ _ _ Hw1 (within_emit _ _))]; lia. }
  assert (max_retries (emit (SleepRandom 1) st1) = max_retries st) as Hm.
  { by destruct Hw1 as ((? & _) & _). }
  pose proof (within_foldl (process_url w company_name site_name)
                (max_retries st) (target_sites st) (4 * S (max_retries st)) 1
                (take 3 relevant) (emit (SleepRandom 1) st1)) as Hf.
  eapply within_mono; [| |refine (within_trans _ _ _ _ _ _ _ Hw1 (Hf _ Hm _))].
  - pose proof (length_take_le relevant 3) as Hl. rewrite length_take. nia.
  - rewrite length_take. lia.
  - intros st0 url <- _. apply within_process_url.
  - by destruct Hw1 as ((_ & ? & _) & _).
Qed.

Lemma within_scrape_company company_name st :
  within (length (target_sites st) * (13 * S (max_retries st)))
         (length (target_sites st) * 3) st (scrape_company w company_name st).
Proof.
  unfold scrape_company.
  apply (within_foldl _ (max_retries st) (target_sites st)); [|done|done].
  intros st0 site <- _. apply within_scrape_site.
Qed.

Lemma within_run companies st :
  within (length companies * (length (target_sites st) * (13 * S (max_retries st))))
         (length companies * (length (target_sites st) * 3)) st (run w companies st).
Proof.
  unfold run. apply (within_foldl _ (max_retries st) (target_sites st)); [|done|done].
  intros st0 company <- <-.
  eapply within_mono;
    [| |exact (within_trans _ _ _ _ _ _ _
                 (within_trans _ _ _ _ _ _ _ (within_emit (Log INFO company) st0)
                    (within_scrape_company company _))
                 (within_emit (SleepRandom 2) _))]; simpl; lia.
Qed.

(** X14. A run adds at most three records for each company and target
    site, since three links per site are processed and a link gives one
    record at most: fifteen per company for the agent as constructed. *)
Theorem run_adds_three_records_per_site companies st :
  (total_records (run w companies st)
   ≤ total_records st + length companies * (length (target_sites st) * 3))%nat
  ∧ (total_records (run w companies init) ≤ 15 * length companies)%nat.
Proof.
  split.
  - by destruct (within_run companies st) as (_ & _ & ? & _).
  - destruct (within_run companies init) as (_ & _ & Ht & _).
    change (total_records init) with 0%nat in Ht.
    change (length (target_sites init)) with 5%nat in Ht. lia.
Qed.

(** X15. A run calls [page.goto] at most [13 * (max_retries + 1)] times for
    each company and target site (one search page and three links tested for
    four data types, each fetched with its retries): at most 260 times per
    company for the agent as constructed. *)
Theorem run_navigations_are_bounded companies st :
  (navigations (run w companies st)
   ≤ navigations st
     + length companies * (length (target_sites st) * (13 * S (max_retries st))))%nat
  ∧ (navigations (run w companies init) ≤ 260 * length companies)%nat.
Proof.
  split.
  - by destruct (within_run companies st) as (_ & [_ ?] & _).
  - destruct (within_run companies init) as (_ & [_ Hn] & _).
    change (navigations init) with 0%nat in Hn.
    change (length (target_sites init)) with 5%nat in Hn.
    change (max_retries init) with 3%nat in Hn. lia.
Qed.

(** X16. A run changes none of the agent's settings; the visited set and
    the trace of effects only grow, and no navigation is undone. *)
Theorem run_keeps_the_settings companies st :
  let st' := run w companies st in
  target_sites st' = target_sites st ∧ max_retries st' = max_retries st
  ∧ timeout st' = timeout st
  ∧ collected_urls st ⊆ collected_urls st'
  ∧ trace st `prefix_of` trace st'
  ∧ (navigations st ≤ navigations st')%nat.
Proof.
  destruct (within_run companies st) as ((? & ? & ?) & [? _] & _ & ? & ?).
  simpl. done.
Qed.
End RunMore.

(** ** The records a run adds *)
Section RecordsMore.
Import StockDataAgent Run More Grow.
Context `{Python}.
Variable w : world.

Lemma adds_refl P st : adds P st st.
Proof. intros k. exists []. by rewrite app_nil_r. Qed.

Lemma adds_same P st st' : data_points st' = data_points st → adds P st st'.
Proof. intros Hd k. exists []. by rewrite Hd, app_nil_r. Qed.

Lemma adds_trans P st st1 st2 : adds P st st1 → adds P st1 st2 → adds P st st2.
Proof.
  intros H1 H2 k. destruct (H1 k) as (n1 & E1 & F1). destruct (H2 k) as (n2 & E2 & F2).
  exists (n1 ++ n2). split; [by rewrite E2, E1, app_assoc|by apply Forall_app].
Qed.

Lemma adds_append (P : entry → Prop) k e st : P e → adds P st (append k e st).
Proof.
  intros He k'. simpl. destruct (decide (k' = k)).
  - exists [e]. split; [done|by constructor].
  - exists []. by rewrite app_nil_r.
Qed.

Lemma adds_foldl {A} (P : entry → Prop) (f : state → A → state) l st :
  (∀ st x, x ∈ l → adds P st (f st x)) → adds P st (foldl f st l).
Proof.
  revert st. induction l as [|x l IH]; intros st Hf; simpl; [apply adds_refl|].
  eapply adds_trans; [apply Hf; left|].
  apply IH. intros st0 y Hy. apply Hf. by right.
Qed.

Lemma adds_test (P : entry → Prop) company_name site_name url st k :
  (∀ e, company e = company_name → source e = site_name → entry_url e = url →
        entry_text_data e ≠ [] → P e) →
  adds P st (test_data_type w company_name site_name url st k).
Proof.
  intros HP. unfold test_data_type.
  pose proof (extract_cases w url k st) as Hc.
  destruct (extract_data_from_url w url k st) as [[d|] st1].
  - destruct Hc as (_ & Hu & Ht & _ & Hd).
    eapply adds_trans; [by apply adds_same|]. apply adds_append. by apply HP.
  - destruct Hc as (_ & Hd). by apply adds_same.
Qed.

Lemma adds_scrape_site (P : entry → Prop) company_name st site :
  (∀ e, company e = company_name → source e = site.1 → entry_text_data e ≠ [] → P e) →
  adds P st (scrape_site w company_name st site).
Proof.
  intros HP. unfold scrape_site. destruct site as [site_name base_url].
  destruct (search_url site_name base_url company_name) as [search|];
    [|by apply adds_same].
  pose proof (safe_goto_same_agent w search 0 st) as Hs.
  destruct (safe_goto w search 0 st) as [ok st1]. simpl in Hs.
  destruct Hs as (_ & Hd & _).
  eapply adds_trans; [by apply (adds_same P st st1)|].
  destruct ok; simpl; [|apply adds_refl].
  destruct (page st1) as [soup|]; [|by apply adds_same].
  destruct (relevant_urls _ _ _) as [relevant|]; [|by apply adds_same].
  eapply adds_trans; [by apply (adds_same P st1 (emit (SleepRandom 1) st1))|].
  apply adds_foldl. intros st0 url _. unfold process_url.
  eapply adds_trans; [|by apply adds_same].
  apply adds_foldl. intros st2 k _. apply adds_test.
  intros e ? ? _ ?. by apply HP.
Qed.

Lemma adds_run (P : entry → Prop) companies st :
  (∀ e, company e ∈ companies → source e ∈ (target_sites st).*1 →
        entry_text_data e ≠ [] → P e) →
  adds P st (run w companies st).
Proof.
  intros HP. unfold run.
  assert (∀ l st0, l ⊆ companies → rtc (step w) st st0 →
            adds P st0 (foldl (λ st company,
              emit (SleepRandom 2)
                (scrape_company w company (emit (Log INFO company) st))) st0 l)) as Hl.
  2: { apply Hl; [done|apply rtc_refl]. }
  induction l as [|company l IH]; intros st0 Hsub Hst0; simpl; [apply adds_refl|].
  assert (company ∈ companies) as Hc by (apply Hsub; left).
  assert (adds P st0 (emit (SleepRandom 2)
            (scrape_company w company (emit (Log INFO company) st0)))) as Hone.
  { eapply adds_trans; [by apply (adds_same P st0 (emit (Log INFO company) st0))|].
    eapply adds_trans; [|by apply adds_same].
    unfold scrape_company.
    assert (target_sites (emit (Log INFO company) st0) = target_sites st) as Hts.
    { simpl. by apply (steps_target_sites w). }
    apply adds_foldl. intros st1 site Hsite. apply adds_scrape_site.
    intros e He Hsrc Hne. apply HP; [by rewrite He| |done].
    rewrite Hsrc, <- Hts. apply list_elem_of_fmap. by exists site. }
  eapply adds_trans; [exact Hone|]. apply IH.
  - intros c Hin. apply Hsub. by right.
  - etrans; [exact Hst0|].
    eapply rtc_r; [|apply step_emit].
    etrans; [|apply scrape_company_steps].
    apply rtc_once, step_emit.
Qed.

(** X17. A run leaves the records it found where they are, and adds after
    them records of the companies it was given only, each from one of the
    agent's target sites and with at least one fragment. *)
Theorem run_appends_tagged_records companies st k :
  ∃ new, data_points (run w companies st) k = data_points st k ++ new
    ∧ Forall (λ e, company e ∈ companies ∧ source e ∈ (target_sites st).*1
                   ∧ entry_text_data e ≠ []) new.
Proof. by apply adds_run. Qed.
End RecordsMore.

(** ** More on save_results *)
Section SaveMore.
Import StockDataAgent Run More ResultWriter.
Variable path_join : str → str → str.

Lemma companies_elem st c :
  c ∈ companies st ↔ ∃ k e, e ∈ data_points st k ∧ company e = c.
Proof.
  unfold companies. rewrite elem_of_list_to_set, list_elem_of_In, in_flat_map.
  split.
  - intros (k & _ & Hin). apply in_map_iff in Hin as (e & He & Hin).
    exists k, e. by rewrite list_elem_of_In.
  - intros (k & e & Hin & He). exists k. split.
    + unfold keys. destruct k; simpl; auto.
    + apply in_map_iff. exists e. by rewrite <- list_elem_of_In.
Qed.

(** The records of one company, over a list of companies without
    repetition, are the records of the companies of the list *)
Lemma by_company_cons (e : entry) l cs :
  NoDup cs →
  flat_map (λ c, filter (λ item, company item = c) (e :: l)) cs
  ≡ₚ (if decide (company e ∈ cs) then [e] else [])
     ++ flat_map (λ c, filter (λ item, company item = c) l) cs.
Proof.
  induction 1 as [|c cs Hc Hnd IH]; simpl; [done|].
  rewrite IH, filter_cons. clear IH.
  destruct (decide (company e = c)) as [<-|Hne];
    destruct (decide (company e ∈ cs)) as [Hin|Hnin];
    destruct (decide (company e ∈ _ :: cs)) as [Hin'|Hnin']; try done.
  - exfalso. apply Hnin'. left.
  - simpl. symmetry. apply Permutation_middle.
  - exfalso. apply Hnin'. by right.
  - exfalso. apply elem_of_cons in Hin' as [?|?]; done.
Qed.

Lemma by_company l cs :
  NoDup cs → (∀ e, e ∈ l → company e ∈ cs) →
  flat_map (λ c, filter (λ item, company item = c) l) cs ≡ₚ l.
Proof.
  intros Hnd. induction l as [|e l IH]; intros Hin.
  - clear. induction cs as [|c cs IHc]; simpl; [done|exact IHc].
  - rewrite by_company_cons by done.
    rewrite decide_True by (apply Hin; left). simpl. constructor.
    apply IH. intros e' He'. apply Hin. by right.
Qed.

Lemma dumped_app k ops1 ops2 : dumped k (ops1 ++ ops2) = dumped k ops1 ++ dumped k ops2.
Proof. apply flat_map_app. Qed.

Lemma csv_rows_app ops1 ops2 : csv_rows (ops1 ++ ops2) = csv_rows ops1 ++ csv_rows ops2.
Proof. apply flat_map_app. Qed.

Lemma reported_app ops1 ops2 : reported (ops1 ++ ops2) = reported ops1 ++ reported ops2.
Proof. apply flat_map_app. Qed.

Lemma dumped_csv k (dir timestamp : str) data :
  dumped k (flat_map (λ '(k0, items),
              if bool_decide (items ≠ []) then
                [ToCsv (path_join dir (key k0 ++ u "_" ++ timestamp ++ u ".csv")) items]
              else []) data) = [].
Proof.
  induction data as [|[k0 items] data IH]; [done|].
  cbn [flat_map]. rewrite dumped_app, IH. by case_bool_decide.
Qed.

Lemma dumped_save_company k st output_dir timestamp c :
  dumped k (save_company path_join st output_dir timestamp c)
  = filter (λ item, company item = c) (data_points st k).
Proof.
  unfold save_company. cbv zeta. rewrite !dumped_app, dumped_csv.
  unfold company_data, keys. destruct k; cbn; by rewrite ?app_nil_r.
Qed.

Lemma csv_rows_csv (dir timestamp : str) (data : list (data_type * list entry)) :
  csv_rows (flat_map (λ '(k0, items),
              if bool_decide (items ≠ []) then
                [ToCsv (path_join dir (key k0 ++ u "_" ++ timestamp ++ u ".csv")) items]
              else []) data) = flat_map snd data.
Proof.
  induction data as [|[k0 items] data IH]; [done|].
  cbn [flat_map]. rewrite csv_rows_app, IH. case_bool_decide as Hi.
  - cbn. by rewrite app_nil_r.
  - by subst.
Qed.

Lemma csv_rows_save_company st output_dir timestamp c :
  csv_rows (save_company path_join st output_dir timestamp c)
  = flat_map (λ k, filter (λ item, company item = c) (data_points st k)) keys.
Proof.
  unfold save_company. cbv zeta. rewrite !csv_rows_app, csv_rows_csv.
  unfold company_data, keys. cbn. by rewrite ?app_nil_r.
Qed.

Lemma reported_csv (dir timestamp : str) (data : list (data_type * list entry)) :
  reported (flat_map (λ '(k0, items),
              if bool_decide (items ≠ []) then
                [ToCsv (path_join dir (key k0 ++ u "_" ++ timestamp ++ u ".csv")) items]
              else []) data) = [].
Proof.
  induction data as [|[k0 items] data IH]; [done|].
  cbn [flat_map]. rewrite reported_app, IH. by case_bool_decide.
Qed.

Lemma reported_save_company st output_dir timestamp c :
  reported (save_company path_join st output_dir timestamp c) = [c].
Proof.
  unfold save_company. cbv zeta. by rewrite !reported_app, reported_csv.
Qed.

Lemma dumped_save_results k st output_dir timestamp :
  dumped k (save_results path_join st output_dir timestamp)
  = flat_map (λ c, filter (λ item, company item = c) (data_points st k))
      (base.elements (companies st)).
Proof.
  unfold save_results. generalize (base.elements (companies st)) as cs.
  intros cs. change (dumped k (Makedirs output_dir :: ?ops)) with (dumped k ops).
  induction cs as [|c cs IH]; [done|].
  cbn [flat_map]. by rewrite dumped_app, dumped_save_company, IH.
Qed.

Lemma reported_save_results st output_dir timestamp :
  reported (save_results path_join st output_dir timestamp)
  = base.elements (companies st).
Proof.
  unfold save_results. generalize (base.elements (companies st)) as cs.
  intros cs. change (reported (Makedirs output_dir :: ?ops)) with (reported ops).
  induction cs as [|c cs IH]; [done|].
  cbn [flat_map]. by rewrite reported_app, reported_save_company, IH.
Qed.

(** X18. Saving loses and repeats nothing: for each category, the records
    of the snapshots dumped, taken together, are the records of the
    aggregate, each once. *)
Theorem save_results_dumps_every_record_once st output_dir timestamp k :
  dumped k (save_results path_join st output_dir timestamp) ≡ₚ data_points st k.
Proof.
  rewrite dumped_save_results. apply by_company.
  - apply NoDup_elements.
  - intros e He. apply elem_of_elements, companies_elem. by exists k, e.
Qed.

Lemma flat_map_app_pointwise {A B} (f g : A → list B) l :
  flat_map (λ x, f x ++ g x) l ≡ₚ flat_map f l ++ flat_map g l.
Proof.
  induction l as [|x l IH]; simpl; [done|]. rewrite IH.
  rewrite <- !app_assoc. apply Permutation_app_head.
  rewrite !app_assoc. apply Permutation_app_tail, Permutation_app_comm.
Qed.

Lemma flat_map_swap {A B C} (f : A → B → list C) la lb :
  flat_map (λ a, flat_map (f a) lb) la ≡ₚ flat_map (λ b, flat_map (λ a, f a b) la) lb.
Proof.
  induction la as [|a la IH]; simpl.
  - induction lb as [|b lb IHb]; simpl; done.
  - rewrite IH. symmetry. apply flat_map_app_pointwise.
Qed.

Lemma csv_rows_save_results st output_dir timestamp :
  csv_rows (save_results path_join st output_dir timestamp)
  = flat_map (λ c, flat_map (λ k, filter (λ item, company item = c) (data_points st k)) keys)
      (base.elements (companies st)).
Proof.
  unfold save_results. generalize (base.elements (companies st)) as cs.
  intros cs. change (csv_rows (Makedirs output_dir :: ?ops)) with (csv_rows ops).
  induction cs as [|c cs IH]; [done|].
  cbn [flat_map]. by rewrite csv_rows_app, csv_rows_save_company, IH.
Qed.

(** What is asked of a CSV file: it has a row *)
Lemma csv_not_empty st output_dir timestamp path items :
  ToCsv path items ∈ save_results path_join st output_dir timestamp → items ≠ [].
Proof.
  unfold save_results. intros [Heq|Hin]%elem_of_cons; [done|].
  apply list_elem_of_In, in_flat_map in Hin as (c & _ & Hin).
  unfold save_company in Hin. cbv zeta in Hin.
  apply in_app_or in Hin as [Hin|Hin].
  { simpl in Hin. destruct Hin as [?|[?|[]]]; done. }
  apply in_app_or in Hin as [Hin|Hin].
  2: { simpl in Hin. destruct Hin as [?|[]]; done. }
  apply in_flat_map in Hin as ([k0 items0] & _ & Hin).
  case_bool_decide as Hne; [|done].
  destruct Hin as [Heq|[]]. by injection Heq as _ <-.
Qed.

(** X19. Each record of the aggregate is a row of exactly one CSV file, and
    no CSV file is written without a row. *)
Theorem save_results_csv_rows st output_dir timestamp :
  csv_rows (save_results path_join st output_dir timestamp)
  ≡ₚ flat_map (data_points st) keys
  ∧ ∀ path items,
      ToCsv path items ∈ save_results path_join st output_dir timestamp → items ≠ [].
Proof.
  split; [|apply csv_not_empty].
  rewrite csv_rows_save_results, flat_map_swap.
  unfold keys. cbn [flat_map].
  repeat (apply Permutation_app; [|try done]);
    (apply by_company; [apply NoDup_elements|]);
    intros e He; apply elem_of_elements, companies_elem; eauto.
Qed.

Lemma companies_empty st : (∀ k, data_points st k = []) → companies st = ∅.
Proof.
  intros He. unfold companies, keys. cbn [flat_map]. by rewrite !He.
Qed.

(** X20. With an empty aggregate nothing is written but the output
    directory, and only then. *)
Theorem save_results_of_nothing st output_dir timestamp :
  save_results path_join st output_dir timestamp = [Makedirs output_dir]
  ↔ ∀ k, data_points st k = [].
Proof.
  split.
  - intros Heq k.
    assert (base.elements (companies st) = []) as Hr.
    { by rewrite <- (reported_save_results st output_dir timestamp), Heq. }
    destruct (data_points st k) as [|e l] eqn:Hk; [done|].
    assert (company e ∈ base.elements (companies st)) as Hin.
    { apply elem_of_elements, companies_elem. exists k, e. rewrite Hk. split; [left|done]. }
    rewrite Hr in Hin. by apply elem_of_nil in Hin.
  - intros He. unfold save_results. by rewrite (companies_empty _ He), elements_empty.
Qed.

(** X21. The directory of a company is named after it with the spaces
    replaced.  When two companies with records have names that differ in a
    space against an underscore only, [save_results] dumps two snapshots
    that differ to one and the same file. *)
Theorem companies_can_share_a_directory st output_dir timestamp k1 k2 e1 e2 :
  e1 ∈ data_points st k1 → e2 ∈ data_points st k2 →
  company e1 ≠ company e2 →
  Py.replace 32 (u "_") (company e1) = Py.replace 32 (u "_") (company e2) →
  ∃ file,
    DumpJson file (company_data st (company e1))
      ∈ save_results path_join st output_dir timestamp
    ∧ DumpJson file (company_data st (company e2))
      ∈ save_results path_join st output_dir timestamp
    ∧ company_data st (company e1) ≠ company_data st (company e2).
Proof.
  intros H1 H2 Hne Heq.
  assert (∀ k e, e ∈ data_points st k →
            DumpJson (path_join (path_join output_dir (Py.replace 32 (u "_") (company e)))
                        (u "raw_data_" ++ timestamp ++ u ".json"))
                     (company_data st (company e))
            ∈ save_results path_join st output_dir timestamp) as Hdump.
  { intros k e He. unfold save_results. right.
    apply list_elem_of_In, in_flat_map. exists (company e). split.
    - apply list_elem_of_In, elem_of_elements, companies_elem. by exists k, e.
    - unfold save_company. cbv zeta. right. left. done. }
  eexists. split; [exact (Hdump k1 e1 H1)|]. split.
  - rewrite Heq. exact (Hdump k2 e2 H2).
  - intros Hd.
    assert (filter (λ item, company item = company e1) (data_points st k1)
            = filter (λ item, company item = company e2) (data_points st k1)) as Hf.
    { unfold company_data, keys in Hd. cbn [map] in Hd.
      injection Hd as ? ? ? ?. by destruct k1. }
    assert (e1 ∈ filter (λ item, company item = company e1) (data_points st k1)) as Hin
      by (by apply list_elem_of_filter).
    rewrite Hf in Hin. apply list_elem_of_filter in Hin as [? _]. done.
Qed.
End SaveMore.

(** X21 on an agent that holds a record of "A B" and a record of "A_B". *)
Lemma companies_can_share_a_directory_witness :
  ∃ file,
    ResultWriter.DumpJson file (ResultWriter.company_data More.namesakes (u "A B"))
      ∈ ResultWriter.save_results More.slash More.namesakes (u "results") (u "now")
    ∧ ResultWriter.DumpJson file (ResultWriter.company_data More.namesakes (u "A_B"))
      ∈ ResultWriter.save_results More.slash More.namesakes (u "results") (u "now")
    ∧ ResultWriter.company_data More.namesakes (u "A B")
      ≠ ResultWriter.company_data More.namesakes (u "A_B").
Proof.
  apply (companies_can_share_a_directory More.slash More.namesakes (u "results") (u "now")
           StockDataAgent.capex StockDataAgent.growth_rate
           (More.record_of (u "A B")) (More.record_of (u "A_B"))).
  - vm_compute. left.
  - vm_compute. left.
  - vm_compute. discriminate.
  - vm_compute. reflexivity.
Defined.

(** ** A run, then its results saved *)
Section RunThenSave.
Import StockDataAgent Run More Grow ResultWriter.
Context `{Python}.
Variable w : world.
Variable path_join : str → str → str.

(** X22. When the results of a run are saved, no company is saved twice,
    and each company saved either was given to the run or had a record
    before it: after a run of the agent as constructed, only companies
    given to the run are saved. *)
Theorem saved_companies_were_asked_for names st output_dir timestamp :
  NoDup (reported (save_results path_join (run w names st) output_dir timestamp))
  ∧ Forall (λ c, c ∈ names ∨ c ∈ companies st)
      (reported (save_results path_join (run w names st) output_dir timestamp))
  ∧ Forall (λ c, c ∈ names)
      (reported (save_results path_join (run w names init) output_dir timestamp)).
Proof.
  assert (∀ st0 c, c ∈ companies (run w names st0) → c ∈ names ∨ c ∈ companies st0) as Hc.
  { intros st0 c (k & e & He & <-)%companies_elem.
    destruct (adds_run w (λ e, company e ∈ names) names st0 (λ _ Hin _ _, Hin) k)
      as (new & Hnew & Hall).
    rewrite Hnew in He. apply elem_of_app in He as [He|He].
    - right. apply companies_elem. by exists k, e.
    - left. rewrite Forall_forall in Hall. by apply Hall. }
  rewrite !reported_save_results. split_and!.
  - apply NoDup_elements.
  - apply Forall_forall. intros c Hin%elem_of_elements. by apply Hc.
  - apply Forall_forall. intros c Hin%elem_of_elements.
    destruct (Hc _ _ Hin) as [?|Hi]; [done|].
    apply companies_elem in Hi as (k & e & He & _). by apply elem_of_nil in He.
Qed.

Lemma safe_goto_no_page url retries st :
  (∀ n url content, goto w n url ≠ Loaded content) →
  (safe_goto w url retries st).1 = false.
Proof.
  intros Hno. pose proof (safe_goto_within w url retries st) as Hw.
  destruct (safe_goto w url retries st) as [[|] st']; [|done].
  destruct Hw as (_ & (content & Hg & _) & _). by apply Hno in Hg.
Qed.

Lemma same_agent_emit e st : same_agent st (emit e st).
Proof. by repeat split. Qed.

Lemma same_agent_foldl {A} (f : state → A → state) l st :
  (∀ st x, same_agent st (f st x)) → same_agent st (foldl f st l).
Proof.
  intros Hf. revert st. induction l as [|x l IH]; intros st; simpl.
  - apply same_agent_refl.
  - eapply same_agent_trans; [apply Hf|apply IH].
Qed.

(** X23. When no navigation loads a page, a run ends without a record and
    without a visited URL, whatever the companies; saving the results of
    the agent as constructed then makes the output directory and nothing
    else. *)
Theorem run_without_a_page names st output_dir timestamp :
  (∀ n url content, goto w n url ≠ Loaded content) →
  data_points (run w names st) = data_points st
  ∧ collected_urls (run w names st) = collected_urls st
  ∧ save_results path_join (run w names init) output_dir timestamp
    = [Makedirs output_dir].
Proof.
  intros Hno.
  assert (∀ st0, same_agent st0 (run w names st0)) as Hs.
  { intros st0. unfold run. apply same_agent_foldl. intros st1 company.
    eapply same_agent_trans; [apply same_agent_emit|].
    eapply same_agent_trans; [|apply same_agent_emit].
    unfold scrape_company. apply same_agent_foldl. intros st2 [site_name base_url].
    unfold scrape_site.
    destruct (search_url site_name base_url company) as [search|];
      [|apply same_agent_emit].
    pose proof (safe_goto_no_page search 0 st2 Hno) as Hf.
    pose proof (safe_goto_same_agent w search 0 st2) as Hsame.
    destruct (safe_goto w search 0 st2) as [ok st3]. simpl in Hf, Hsame.
    by rewrite Hf. }
  destruct (Hs st) as (_ & Hd & Hc & _). split; [done|]. split; [done|].
  destruct (Hs init) as (_ & Hi & _).
  unfold save_results.
  rewrite (companies_empty (run w names init)), elements_empty; [done|].
  intros k. by rewrite Hi.
Qed.
End RunThenSave.

Lemma run_without_a_page_witness :
  StockDataAgent.data_points
    (StockDataAgent.run (H := plain) Run.unreachable [u "TCS"] StockDataAgent.init)
  = StockDataAgent.data_points StockDataAgent.init
  ∧ StockDataAgent.collected_urls
      (StockDataAgent.run (H := plain) Run.unreachable [u "TCS"] StockDataAgent.init)
    = StockDataAgent.collected_urls StockDataAgent.init
  ∧ ResultWriter.save_results app
      (StockDataAgent.run (H := plain) Run.unreachable [u "TCS"] StockDataAgent.init)
      (u "results") (u "now")
    = [ResultWriter.Makedirs (u "results")].
Proof.
  apply (run_without_a_page (H := plain) Run.unreachable app [u "TCS"]
           StockDataAgent.init (u "results") (u "now")).
  intros n url content. discriminate.
Defined.
